(** * SpeedTest backend: a shallow embedding of the Express handlers

    The repository holds several variants of one small Express server.  The
    variants modelled here are

    - the chunked variant (the second program of [src/unnamed/part_001]):
      [generateRandomBuffer], [GET /download] with its [sendChunk] loop,
      [POST /upload] and [GET /download-progressive] with [sendNextChunk];
    - [src/server.js]: the clamping [GET /download] and [POST /upload];
    - the first variant (the first program of [src/unnamed/part_001]):
      [POST /upload].

    JavaScript numbers are modelled as [Z]: every number the handlers compute
    with is an integer or an infinity, and an integer too large for a finite
    double stands for the infinity of its sign ([JS.infinite]).  [NaN] is the
    [None] of [option Z].  Byte buffers are lists of [Z], one element per
    byte.  The callbacks that Node runs later (the completion of
    [res.write], the tasks queued by [setImmediate]) are explicit queues in
    the state of a transition system whose events are supplied by the
    environment. *)

From Stdlib Require Import ZArith Lia String Ascii.
From stdpp Require Import base list gmap strings pretty.

Local Open Scope Z_scope.

(** ** JavaScript built-ins used by the handlers *)

Module JS.

(** Exceptions the modelled built-ins can raise. *)
Inductive js_error := RangeError | TypeError.

Inductive result (A : Type) :=
| Ok (a : A)
| Throw (e : js_error).
Arguments Ok {A} a.
Arguments Throw {A} e.

(** [StrWhiteSpaceChar], restricted to code units below 256. *)
Definition is_white_space (c : ascii) : bool :=
  let n := N_of_ascii c in
  ((n =? 9) || (n =? 10) || (n =? 11) || (n =? 12) || (n =? 13)
   || (n =? 32) || (n =? 160))%N.

Fixpoint trim_start (s : string) : string :=
  match s with
  | String c r => if is_white_space c then trim_start r else s
  | EmptyString => s
  end.

(** The value of [c] as a digit of the given radix, if it is one. *)
Definition digit_value (radix : Z) (c : ascii) : option Z :=
  let n := Z.of_N (N_of_ascii c) in
  let v := if (48 <=? n) && (n <=? 57) then Some (n - 48)
           else if (97 <=? n) && (n <=? 122) then Some (n - 87)
           else if (65 <=? n) && (n <=? 90) then Some (n - 55)
           else None in
  match v with
  | Some d => if d <? radix then Some d else None
  | None => None
  end.

(** The longest prefix of radix digits, as a number; [acc] is [None] as long
    as no digit has been read. *)
Fixpoint parse_digits (radix : Z) (s : string) (acc : option Z) : option Z :=
  match s with
  | String c r =>
      match digit_value radix c with
      | Some d => parse_digits radix r (Some (radix * default 0 acc + d))
      | None => acc
      end
  | EmptyString => acc
  end.

Definition strip_sign (s : string) : Z * string :=
  match s with
  | String c r =>
      if Ascii.eqb c "-" then (-1, r)
      else if Ascii.eqb c "+" then (1, r)
      else (1, s)
  | EmptyString => (1, s)
  end.

Definition strip_radix_prefix (s : string) : Z * string :=
  match s with
  | String c0 (String c1 r) =>
      if Ascii.eqb c0 "0" && (Ascii.eqb c1 "x" || Ascii.eqb c1 "X")
      then (16, r) else (10, s)
  | _ => (10, s)
  end.

(** [parseInt(string)] with no radix argument (ECMAScript 19.2.5). *)
Definition parseInt (s : string) : option Z :=
  let '(sign, s1) := strip_sign (trim_start s) in
  let '(radix, s2) := strip_radix_prefix s1 in
  match parse_digits radix s2 None with
  | Some m => Some (sign * m)
  | None => None
  end.

(** A query parameter is absent ([undefined]) or has a value, given here by
    the string [parseInt] converts it to; [parseInt(undefined)] parses the
    string [undefined]. *)
Definition parseInt_param (q : option string) : option Z :=
  match q with
  | Some s => parseInt s
  | None => parseInt "undefined"
  end.

(** [v || d] on numbers: [NaN] and [0] are falsy. *)
Definition or_default (v : option Z) (d : Z) : Z :=
  match v with
  | Some n => if n =? 0 then d else n
  | None => d
  end.

(** The parameter is absent, is not a number for [parseInt], or is 0: the
    cases in which [parseInt(q) || d] is [d]. *)
Definition falls_back (q : option string) : Prop :=
  q = None
  \/ exists str, q = Some str /\ (parseInt str = None \/ parseInt str = Some 0).

(** A numeral whose value rounds to no finite double makes [parseInt] return
    an infinity.  An integer of that magnitude stands for the infinity of its
    sign: the handlers compare such a number with finite ones and divide a
    finite number by it, and nothing else. *)
Definition infinite (n : Z) : bool := 2 ^ 1024 - 2 ^ 970 <=? Z.abs n.

(** A finite number above 0. *)
Definition positive_integer (n : Z) : Prop := 0 < n /\ infinite n = false.

(** [Math.ceil(a / b)] for a finite [a]: a quotient by an infinity is a
    zero. *)
Definition ceil_div (a b : Z) : Z :=
  if infinite b then 0 else - ((- a) / b).

Definition byte_length (b : list Z) : Z := Z.of_nat (length b).

(** [Buffer.alloc(size, fill)] with a one-byte fill. *)
Definition Buffer_alloc (size : Z) (fill : Z) : result (list Z) :=
  if size <? 0 then Throw RangeError
  else Ok (replicate (Z.to_nat size) fill).

Definition le32 (value : Z) : list Z :=
  [ Z.land value 255;
    Z.land (Z.shiftr value 8) 255;
    Z.land (Z.shiftr value 16) 255;
    Z.land (Z.shiftr value 24) 255 ].

(** [buf.writeUInt32LE(value, offset)]: the value and the four bytes at
    [offset] must be in range, otherwise a [RangeError] is thrown. *)
Definition writeUInt32LE (buf : list Z) (value offset : Z) : result (list Z) :=
  if (value <? 0) || (4294967295 <? value) then Throw RangeError
  else if (offset <? 0) || (byte_length buf <? offset + 4) then Throw RangeError
  else Ok (take (Z.to_nat offset) buf ++ le32 value
             ++ drop (Z.to_nat offset + 4) buf).

End JS.

Import JS.

(** ** The random payload generator ([generateRandomBuffer]) *)

Module Generator.

(** [Math.floor(Math.random() * 0xFFFFFFFF)]: the [k]-th draw of the source
    [rng], which lies in [0, 0xFFFFFFFF). *)
Definition random_word (rng : nat -> Z) (k : nat) : Z := rng k mod 4294967295.

(** [for (let i = 0; i < sizeInBytes; i += 4) buffer.writeUInt32LE(..., i)]
    from offset [i] on; [k] counts the draws made so far.  [fuel] bounds the
    number of iterations. *)
Fixpoint fill_words (rng : nat -> Z) (sizeInBytes : Z) (fuel : nat) (i : Z)
    (buffer : list Z) (k : nat) : result (list Z * nat) :=
  match fuel with
  | O => Ok (buffer, k)
  | S fuel' =>
      if i <? sizeInBytes then
        match writeUInt32LE buffer (random_word rng k) i with
        | Ok buffer' => fill_words rng sizeInBytes fuel' (i + 4) buffer' (S k)
        | Throw e => Throw e
        end
      else Ok (buffer, k)
  end.

(** The number of iterations after which [i < sizeInBytes] fails. *)
Definition iterations (sizeInBytes : Z) : nat := Z.to_nat ((sizeInBytes + 3) / 4).

Definition generateRandomBuffer (rng : nat -> Z) (sizeInBytes : Z) (k : nat)
  : result (list Z * nat) :=
  match Buffer_alloc sizeInBytes 0 with
  | Ok buffer => fill_words rng sizeInBytes (iterations sizeInBytes) 0 buffer k
  | Throw e => Throw e
  end.

End Generator.

Import Generator.

(** ** The chunked variant: [GET /download] and its [sendChunk] loop *)

Module Chunked.

Record download_query := { q_size : option string; q_chunk : option string }.

(** What the handler has fixed when [sendChunk(0)] is called. *)
Record session := { bufferSize : Z; chunkSize : Z }.

Definition chunkCount (s : session) : Z := ceil_div (bufferSize s) (chunkSize s).

Inductive reply :=
| Rejected (status : Z) (error : string)
| Streaming (contentLength : Z) (s : session).

Definition requested_size (q : download_query) : Z :=
  or_default (parseInt_param (q_size q)) 10.

(** The handler up to the call [sendChunk(0)]: a rejection is
    [res.status(400).json({ error })], otherwise the headers are set, with
    [Content-Length: bufferSize], and streaming starts. *)
Definition download (q : download_query) : reply :=
  let size := or_default (parseInt_param (q_size q)) 10 in
  let chunkSize := or_default (parseInt_param (q_chunk q)) (1024 * 1024) in
  let bufferSize := size * 1024 * 1024 in
  if size >? 100 then Rejected 400 "Maximum download size is 100MB"
  else if size <? 1 then Rejected 400 "Minimum download size is 1MB"
  else Streaming bufferSize {| bufferSize := bufferSize; chunkSize := chunkSize |}.

(** A [res.write(chunkBuffer, callback)] whose callback has not run yet,
    with the variables the callback closes over. *)
Record pending_write :=
  { w_chunkIndex : Z; w_currentChunkSize : Z; w_chunkBuffer : list Z }.

Record state := State {
  sentBytes : Z;
  written : list (Z * list Z);
    (* the calls of res.write in order, each with the value of sentBytes
       at the call *)
  inflight : list pending_write;
  immediates : list Z;
    (* chunk indices of the queued setImmediate(() => sendChunk(i)) *)
  ended : bool;       (* res.end() has been called *)
  thrown : bool;      (* an exception has left sendChunk *)
  draws : nat         (* values taken from Math.random() so far *)
}.

Definition init : state := State 0 [] [] [] false false 0.

Section Loop.
Variable s : session.
Variable rng : nat -> Z.

Definition sendChunk (chunkIndex : Z) (st : state) : state :=
  if chunkIndex >=? chunkCount s then
    State (sentBytes st) (written st) (inflight st) (immediates st) true
      (thrown st) (draws st)
  else
    let remainingBytes := bufferSize s - sentBytes st in
    let currentChunkSize := Z.min (chunkSize s) remainingBytes in
    match generateRandomBuffer rng currentChunkSize (draws st) with
    | Throw _ =>
        State (sentBytes st) (written st) (inflight st) (immediates st)
          (ended st) true (draws st)
    | Ok (chunkBuffer, k) =>
        State (sentBytes st)
          (written st ++ [(sentBytes st, chunkBuffer)])
          (inflight st ++ [Build_pending_write chunkIndex currentChunkSize chunkBuffer])
          (immediates st) (ended st) (thrown st) k
    end.

(** The callback of [res.write]; [err] tells whether the sink reported an
    error. *)
Definition write_callback (w : pending_write) (err : bool) (st : state) : state :=
  if err then st
  else
    let sent := sentBytes st + w_currentChunkSize w in
    if w_chunkIndex w <? chunkCount s - 1 then
      State sent (written st) (inflight st)
        (immediates st ++ [w_chunkIndex w + 1]) (ended st) (thrown st) (draws st)
    else
      State sent (written st) (inflight st) (immediates st) true
        (thrown st) (draws st).

(** What the event loop can do next: complete the oldest pending write, or
    run the oldest queued immediate. *)
Inductive event := WriteDone (err : bool) | Immediate.

Definition step (ev : event) (st : state) : option state :=
  match ev with
  | WriteDone err =>
      match inflight st with
      | w :: rest =>
          Some (write_callback w err
                  (State (sentBytes st) (written st) rest (immediates st)
                     (ended st) (thrown st) (draws st)))
      | [] => None
      end
  | Immediate =>
      match immediates st with
      | i :: rest =>
          Some (sendChunk i
                  (State (sentBytes st) (written st) (inflight st) rest
                     (ended st) (thrown st) (draws st)))
      | [] => None
      end
  end.

Fixpoint exec (evs : list event) (st : state) : option state :=
  match evs with
  | [] => Some st
  | ev :: evs' =>
      match step ev st with
      | Some st' => exec evs' st'
      | None => None
      end
  end.

(** The state in which the handler returns. *)
Definition start : state := sendChunk 0 init.

(** The event loop itself, with a sink that reports the error [errs i] for
    the write of chunk [i]: it runs whatever is pending until nothing is. *)
Definition next_event (errs : Z -> bool) (st : state) : option event :=
  match inflight st, immediates st with
  | w :: _, _ => Some (WriteDone (errs (w_chunkIndex w)))
  | [], _ :: _ => Some Immediate
  | [], [] => None
  end.

Fixpoint run (errs : Z -> bool) (fuel : nat) (st : state) : state :=
  match fuel with
  | O => st
  | S fuel' =>
      match next_event errs st with
      | Some ev =>
          match step ev st with
          | Some st' => run errs fuel' st'
          | None => st
          end
      | None => st
      end
  end.

End Loop.

Definition idle (st : state) : Prop := inflight st = [] /\ immediates st = [].

(** The bytes handed to [res.write] so far. *)
Definition total_length (ws : list (Z * list Z)) : Z :=
  foldr (fun w acc => byte_length (snd w) + acc) 0 ws.

Definition bytes_written (st : state) : Z := total_length (written st).

(** The writes are laid out one after the other from [offset]: each starts
    where the one before ended and has [min(chunkSize, remaining)] bytes. *)
Fixpoint contiguous (s : session) (offset : Z) (ws : list (Z * list Z)) : Prop :=
  match ws with
  | [] => True
  | (at_, buf) :: rest =>
      at_ = offset
      /\ byte_length buf = Z.min (chunkSize s) (bufferSize s - offset)
      /\ contiguous s (offset + byte_length buf) rest
  end.

(** Offsets of successive writes grow strictly. *)
Fixpoint increasing (ws : list (Z * list Z)) : Prop :=
  match ws with
  | [] => True
  | (at_, _) :: rest =>
      match rest with
      | [] => True
      | (next, _) :: _ => at_ < next
      end /\ increasing rest
  end.

(** At most one task is pending, and a pending buffer is no longer than a
    chunk. *)
Definition one_pending (s : session) (st : state) : Prop :=
  (length (inflight st) + length (immediates st) <= 1)%nat
  /\ Forall (fun w => byte_length (w_chunkBuffer w) <= chunkSize s) (inflight st).

(** The shape of every state the loop reaches: the chunk about to be
    acknowledged or sent is chunk [i], and [i] full chunks precede it. *)
Definition layout (s : session) (st : state) : Prop :=
  contiguous s 0 (written st)
  /\ Forall (fun w => 0 < byte_length (snd w)) (written st)
  /\ match inflight st, immediates st with
     | [w], [] =>
         ended st = false /\ thrown st = false
         /\ 0 <= w_chunkIndex w < chunkCount s
         /\ sentBytes st = w_chunkIndex w * chunkSize s
         /\ w_currentChunkSize w = Z.min (chunkSize s) (bufferSize s - sentBytes st)
         /\ total_length (written st) = sentBytes st + w_currentChunkSize w
         /\ Z.of_nat (length (written st)) = w_chunkIndex w + 1
     | [], [i] =>
         ended st = false /\ thrown st = false
         /\ 0 < i < chunkCount s
         /\ sentBytes st = i * chunkSize s
         /\ total_length (written st) = sentBytes st
         /\ Z.of_nat (length (written st)) = i
     | [], [] =>
         ended st = true ->
         thrown st = false
         /\ sentBytes st = bufferSize s
         /\ total_length (written st) = bufferSize s
         /\ Z.of_nat (length (written st)) = chunkCount s
     | _, _ => False
     end.

End Chunked.

(** ** [src/server.js]: [GET /download] *)

Module Simple.

Record response := { status : Z; contentLength : Z; body : list Z }.

Definition requested_size (q_size : option string) : Z :=
  or_default (parseInt_param q_size) 5.

(** The buffer is filled with the byte of the letter X.  An exception leaves
    the handler when [Buffer.alloc] refuses the size. *)
Definition download (q_size : option string) : result response :=
  let size := or_default (parseInt_param q_size) 5 in
  let bufferSize := Z.min size 20 * 1024 * 1024 in
  match Buffer_alloc bufferSize 88 with
  | Ok buffer => Ok {| status := 200; contentLength := bufferSize; body := buffer |}
  | Throw e => Throw e
  end.

End Simple.

(** ** The chunked variant: [GET /download-progressive] *)

Module Progressive.

(** [parseInt(req.query.duration) || 5000]. *)
Definition effective_duration (q_duration : option string) : Z :=
  or_default (parseInt_param q_duration) 5000.

Definition chunkSize : Z := 1024 * 1024.

Record state := State {
  written : list (list Z);     (* the calls of res.write, in order *)
  inflight : list (list Z);    (* writes whose callback has not run *)
  immediates : nat;            (* queued setImmediate(sendNextChunk) *)
  ended : bool;                (* res.end() has been called *)
  thrown : bool;
  draws : nat;                 (* values taken from Math.random() so far *)
  reads : nat                  (* calls of Date.now() so far *)
}.

Section Loop.
Variable duration : Z.
Variable clock : nat -> Z.     (* the successive values of Date.now() *)
Variable rng : nat -> Z.

(** [const startTime = Date.now()] is the first reading of the clock. *)
Definition startTime : Z := clock O.

Definition init : state := State [] [] 0 false false 0 1.

Definition sendNextChunk (st : state) : state :=
  if clock (reads st) - startTime >=? duration then
    State (written st) (inflight st) (immediates st) true (thrown st)
      (draws st) (S (reads st))
  else
    match generateRandomBuffer rng chunkSize (draws st) with
    | Throw _ =>
        State (written st) (inflight st) (immediates st) (ended st) true
          (draws st) (S (reads st))
    | Ok (chunkBuffer, k) =>
        State (written st ++ [chunkBuffer]) (inflight st ++ [chunkBuffer])
          (immediates st) (ended st) (thrown st) k (S (reads st))
    end.

Definition write_callback (err : bool) (st : state) : state :=
  if err then st
  else State (written st) (inflight st) (S (immediates st)) (ended st)
         (thrown st) (draws st) (reads st).

Inductive event := WriteDone (err : bool) | Immediate.

Definition step (ev : event) (st : state) : option state :=
  match ev with
  | WriteDone err =>
      match inflight st with
      | _ :: rest =>
          Some (write_callback err
                  (State (written st) rest (immediates st) (ended st)
                     (thrown st) (draws st) (reads st)))
      | [] => None
      end
  | Immediate =>
      match immediates st with
      | S n =>
          Some (sendNextChunk
                  (State (written st) (inflight st) n (ended st) (thrown st)
                     (draws st) (reads st)))
      | O => None
      end
  end.

Fixpoint exec (evs : list event) (st : state) : option state :=
  match evs with
  | [] => Some st
  | ev :: evs' =>
      match step ev st with
      | Some st' => exec evs' st'
      | None => None
      end
  end.

(** The state in which the handler returns. *)
Definition start : state := sendNextChunk init.

(** The event loop with a sink that reports the error [errs n] for the
    write issued when [n] writes had been made before. *)
Definition next_event (errs : nat -> bool) (st : state) : option event :=
  match inflight st, immediates st with
  | _ :: _, _ => Some (WriteDone (errs (length (written st) - 1)%nat))
  | [], S _ => Some Immediate
  | [], O => None
  end.

Fixpoint run (errs : nat -> bool) (fuel : nat) (st : state) : state :=
  match fuel with
  | O => st
  | S fuel' =>
      match next_event errs st with
      | Some ev =>
          match step ev st with
          | Some st' => run errs fuel' st'
          | None => st
          end
      | None => st
      end
  end.

End Loop.

(** The reading of the clock at the [j]-th deadline check, as elapsed time
    since [startTime]. *)
Definition elapsed (clock : nat -> Z) (j : nat) : Z := clock j - clock O.

(** At most one task is pending, and a pending buffer is one chunk. *)
Definition one_pending (st : state) : Prop :=
  (length (inflight st) + immediates st <= 1)%nat
  /\ Forall (fun b => byte_length b = chunkSize) (inflight st).

(** [j] deadline checks have been made.  While the response is open, each of
    them found the deadline not reached and wrote one chunk; once it is
    ended, the last check was the first to find the deadline reached. *)
Definition on_schedule (duration : Z) (clock : nat -> Z) (st : state) : Prop :=
  thrown st = false
  /\ exists j : nat,
       reads st = S j
       /\ if ended st
          then (1 <= j)%nat
               /\ duration <= elapsed clock j
               /\ (forall i, (1 <= i < j)%nat -> elapsed clock i < duration)
               /\ length (written st) = (j - 1)%nat
               /\ inflight st = [] /\ immediates st = O
          else (forall i, (1 <= i <= j)%nat -> elapsed clock i < duration)
               /\ length (written st) = j.

(** The invariant of the loop. *)
Definition steady (duration : Z) (clock : nat -> Z) (st : state) : Prop :=
  one_pending st /\ on_schedule duration clock st.

End Progressive.

(** ** The upload handlers *)

Module Upload.

#[local] Set Warnings "-register-all".

(** JSON values; numbers are restricted to integers. *)
Inductive json :=
| JNull
| JBool (b : bool)
| JNum (n : Z)
| JStr (s : string)
| JArr (elements : list json)
| JObj (members : list (string * json)).

(** What a JavaScript expression evaluates to here. *)
Inductive js_value := Undefined | Value (v : json).

Definition quote : string := String (ascii_of_nat 34) EmptyString.
Definition backslash : string := String (ascii_of_nat 92) EmptyString.

Definition hex_digit (n : N) : ascii :=
  ascii_of_N (if (n <? 10)%N then 48 + n else 87 + n)%N.

(** [QuoteJSONString] on one code unit below 256. *)
Definition escape_char (c : ascii) : string :=
  let n := N_of_ascii c in
  if (n =? 8)%N then backslash +:+ "b"
  else if (n =? 9)%N then backslash +:+ "t"
  else if (n =? 10)%N then backslash +:+ "n"
  else if (n =? 12)%N then backslash +:+ "f"
  else if (n =? 13)%N then backslash +:+ "r"
  else if (n =? 34)%N then backslash +:+ quote
  else if (n =? 92)%N then backslash +:+ backslash
  else if (n <? 32)%N then
    backslash +:+ "u00"
      +:+ String (hex_digit (n / 16)) (String (hex_digit (n mod 16)) EmptyString)
  else String c EmptyString.

Fixpoint escape (s : string) : string :=
  match s with
  | String c r => escape_char c +:+ escape r
  | EmptyString => EmptyString
  end.

Definition quote_string (s : string) : string := quote +:+ escape s +:+ quote.

(** [JSON.stringify]. *)
Fixpoint stringify (v : json) : string :=
  match v with
  | JNull => "null"
  | JBool true => "true"
  | JBool false => "false"
  | JNum n => pretty n
  | JStr s => quote_string s
  | JArr elements =>
      "[" +:+
      (fix items (l : list json) : string :=
         match l with
         | [] => EmptyString
         | x :: r =>
             stringify x +:+
             match r with [] => EmptyString | _ :: _ => "," +:+ items r end
         end) elements
      +:+ "]"
  | JObj members =>
      "{" +:+
      (fix items (l : list (string * json)) : string :=
         match l with
         | [] => EmptyString
         | (k, x) :: r =>
             quote_string k +:+ ":" +:+ stringify x +:+
             match r with [] => EmptyString | _ :: _ => "," +:+ items r end
         end) members
      +:+ "}"
  end.

(** [req.body] as the body parsers leave it. *)
Inductive body :=
| BodyUndefined
| BodyBuffer (b : list Z)
| BodyJson (v : json).

(** body-parser 1.x (Express 4) sets [req.body] to the empty object before it
    looks at the request; body-parser 2.x (Express 5) leaves it undefined. *)
Inductive express := Express4 | Express5.

Definition unparsed (e : express) : body :=
  match e with
  | Express4 => BodyJson (JObj [])
  | Express5 => BodyUndefined
  end.

Inductive content_type := OctetStream | ApplicationJson | OtherType.

(** How the request frames its body: with a Content-Length header, which
    carries the length of the body, with chunked transfer encoding, or not
    at all; a request without framing has no body. *)
Inductive framing := ContentLength | ChunkedTransfer | NoFraming.

(** An upload as the client sends it: the body is the concatenation of the
    client's writes. *)
Record request := {
  contentType : content_type;
  framed : framing;
  writes : list (list Z)
}.

(** [typeis.hasBody(req)]: the body parsers skip a request without a
    Content-Length or Transfer-Encoding header. *)
Definition hasBody (r : request) : bool :=
  match framed r with
  | NoFraming => false
  | _ => true
  end.

Definition payload (r : request) : list Z := concat (writes r).

Inductive parsed := Next (b : body) | Refuse (status : Z).

Inductive reply :=
| Reported (receivedBytes : js_value)
| Failed (status : Z).

(** [express.raw({ limit, type: 'application/octet-stream' })]. *)
Definition express_raw (limit : Z) (r : request) (b : body) : parsed :=
  if hasBody r then
    match contentType r with
    | OctetStream =>
        if limit <? byte_length (payload r) then Refuse 413
        else Next (BodyBuffer (payload r))
    | _ => Next b
    end
  else Next b.

Section Parser.
(** [JSON.parse] on the bytes of the body, in body-parser's strict mode. *)
Variable JSON_parse : list Z -> option json.

(** [express.json({ limit })]. *)
Definition express_json (limit : Z) (r : request) (b : body) : parsed :=
  if hasBody r then
    match contentType r with
    | ApplicationJson =>
        if limit <? byte_length (payload r) then Refuse 413
        else match payload r with
             | [] => Next (BodyJson (JObj []))
             | _ :: _ =>
                 match JSON_parse (payload r) with
                 | Some v => Next (BodyJson v)
                 | None => Refuse 400
                 end
             end
    | _ => Next b
    end
  else Next b.
End Parser.

Definition mb (n : Z) : Z := n * 1024 * 1024.

(** The value of [x.length]. *)
Definition length_of (b : body) : result js_value :=
  match b with
  | BodyUndefined => Throw TypeError
  | BodyBuffer buf => Ok (Value (JNum (byte_length buf)))
  | BodyJson JNull => Throw TypeError
  | BodyJson (JStr s) => Ok (Value (JNum (Z.of_nat (String.length s))))
  | BodyJson (JArr l) => Ok (Value (JNum (Z.of_nat (length l))))
  | BodyJson (JObj members) =>
      match list_find (fun m => bool_decide (fst m = "length")) (reverse members) with
      | Some (_, (_, v)) => Ok (Value v)
      | None => Ok Undefined
      end
  | BodyJson _ => Ok Undefined
  end.

Definition truthy (v : js_value) : bool :=
  match v with
  | Undefined => false
  | Value JNull => false
  | Value (JBool b) => b
  | Value (JNum n) => negb (n =? 0)
  | Value (JStr s) => negb (bool_decide (s = EmptyString))
  | Value _ => true
  end.

(** [Buffer.prototype.toJSON]. *)
Definition buffer_to_json (b : list Z) : json :=
  JObj [("type", JStr "Buffer"); ("data", JArr (map JNum b))].

(** *** The chunked variant: [receivedBytes = req.body.length] behind
        [express.raw({ limit: '100mb' })].  A [TypeError] is caught by the
        handler, which answers 500.  The field [receivedMB] is a formatted
        floating-point number and is left out. *)
Definition chunked_handler (b : body) : reply :=
  match length_of b with
  | Ok v => Reported v
  | Throw _ => Failed 500
  end.

(** The error-handling middleware that the chunked and the configurable
    variant install after their routes,
    [app.use((err, req, res, next) => { ...; res.status(500).json(...) })]:
    an error that a body parser passes on is answered with status 500,
    whatever status the error carries.  The variants that install none leave
    the error to Express's default handler, which answers with the status of
    the error. *)
Definition error_middleware (status : Z) : reply := Failed 500.

Definition chunked_upload (e : express) (r : request) : reply :=
  match express_raw (mb 100) r (unparsed e) with
  | Next b => chunked_handler b
  | Refuse st => error_middleware st
  end.

(** *** The first variant: [JSON.stringify(req.body).length] behind
        [express.json({ limit: '50mb' })]. *)
Definition first_handler (b : body) : reply :=
  match b with
  | BodyUndefined => Failed 500
  | BodyBuffer buf =>
      Reported (Value (JNum (Z.of_nat (String.length (stringify (buffer_to_json buf))))))
  | BodyJson v => Reported (Value (JNum (Z.of_nat (String.length (stringify v)))))
  end.

Definition first_upload (JSON_parse : list Z -> option json) (e : express)
    (r : request) : reply :=
  match express_json JSON_parse (mb 50) r (unparsed e) with
  | Next b => first_handler b
  | Refuse st => Failed st
  end.

(** *** [src/server.js]:
        [body.length || (headers['content-length'] ? parseInt(...) : 0)]
        behind [express.json] and [express.raw], both with limit 50mb. *)
Definition server_handler (r : request) (b : body) : reply :=
  match length_of b with
  | Ok v =>
      if truthy v then Reported v
      else match framed r with
           | ContentLength => Reported (Value (JNum (byte_length (payload r))))
           | _ => Reported (Value (JNum 0))
           end
  | Throw _ => Failed 500
  end.

Definition server_upload (JSON_parse : list Z -> option json) (e : express)
    (r : request) : reply :=
  match express_json JSON_parse (mb 50) r (unparsed e) with
  | Refuse st => Failed st
  | Next b =>
      match express_raw (mb 50) r b with
      | Refuse st => Failed st
      | Next b' => server_handler r b'
      end
  end.

End Upload.

(** ** The rate limiter *)

Module RateLimit.

(** The options the variants pass to [rateLimit]. *)
Record config := {
  windowMs : Z;
  max : nat;
  skipSuccessfulRequests : bool
}.

(** [src/server.js]. *)
Definition server_limiter : config :=
  {| windowMs := 5 * 60 * 1000; max := 500; skipSuccessfulRequests := true |}.

(** The chunked variant. *)
Definition chunked_limiter : config :=
  {| windowMs := 15 * 60 * 1000; max := 1000; skipSuccessfulRequests := false |}.

Record RateWindow := { windowStartedAt : Z; count : nat }.

Record decision := { allowed : bool; retryAfter : option Z }.

(** Modelled from the spec: the answer for a request that finds its window
    [w] already counting it (section 4.4: if [count] exceeds the maximum,
    [allowed=false] with the remaining window time as [retryAfter]; otherwise
    [allowed=true]). *)
Definition verdict (cfg : config) (w : RateWindow) (now : Z) : decision :=
  if (max cfg <? count w)%nat
  then {| allowed := false;
          retryAfter := Some (windowStartedAt w + windowMs cfg - now) |}
  else {| allowed := true; retryAfter := None |}.

(** Modelled from the spec: the admission check of the [express-rate-limit]
    package, whose code is not part of the repository.  Section 4.4: look up
    or create the client's window; if the window has expired (section 3: the
    time elapsed since [windowStartedAt] exceeds the window length), reset it;
    increment [count]; if [count] exceeds the maximum, return [allowed=false]
    with the remaining window time as [retryAfter]; otherwise [allowed=true]. *)
Definition admission (cfg : config) (now : Z) (clientKey : string)
    (registry : gmap string RateWindow) : decision * gmap string RateWindow :=
  let fresh := {| windowStartedAt := now; count := 0 |} in
  let w := match registry !! clientKey with
           | Some w => if windowMs cfg <? now - windowStartedAt w then fresh else w
           | None => fresh
           end in
  let w' := {| windowStartedAt := windowStartedAt w; count := S (count w) |} in
  (verdict cfg w' now, <[clientKey := w']> registry).

(** The calls of one client at the given times, oldest first. *)
Fixpoint admit_all (cfg : config) (times : list Z) (clientKey : string)
    (registry : gmap string RateWindow)
  : list decision * gmap string RateWindow :=
  match times with
  | [] => ([], registry)
  | t :: rest =>
      let '(d, registry') := admission cfg t clientKey registry in
      let '(ds, registry'') := admit_all cfg rest clientKey registry' in
      (d :: ds, registry'')
  end.

(** No window of the client is running at time [now]. *)
Definition no_window (cfg : config) (now : Z) (clientKey : string)
    (registry : gmap string RateWindow) : Prop :=
  match registry !! clientKey with
  | Some w => windowMs cfg < now - windowStartedAt w
  | None => True
  end.

End RateLimit.

(** ** The configurable variant ([src/unnamed/part_000]) *)

Module Configurable.

(** [Buffer.alloc(size, fill)] with a string to fill with: the bytes of the
    string are repeated over the buffer; an empty string leaves the zeros. *)
Definition Buffer_alloc_string (size : Z) (fill : list Z) : result (list Z) :=
  if size <? 0 then Throw RangeError
  else
    Ok (map (fun i => default 0 (fill !! (i mod length fill)%nat))
          (seq 0 (Z.to_nat size))).

Inductive reply :=
| Rejected (status : Z) (error : string)
| Sent (contentLength : Z) (body : list Z).

Definition requested_size (q_size : option string) : Z :=
  or_default (parseInt_param q_size) 10.

(** [GET /download]; [fill] holds the bytes of
    [Math.random().toString(36).substring(2)].  The size is checked against
    the maximum only; an exception of [Buffer.alloc] leaves the handler. *)
Definition download (q_size : option string) (fill : list Z) : result reply :=
  let size := or_default (parseInt_param q_size) 10 in
  let bufferSize := size * 1024 * 1024 in
  if size >? 50 then Ok (Rejected 400 "Maximum download size is 50MB")
  else
    match Buffer_alloc_string bufferSize fill with
    | Ok buffer => Ok (Sent bufferSize buffer)
    | Throw e => Throw e
    end.

(** [POST /upload]: [req.body.length] behind [express.raw({ limit: '50mb' })],
    with the [TypeError] caught and answered by status 500.  An error of the
    parser goes to the error-handling middleware of this variant. *)
Definition upload (e : Upload.express) (r : Upload.request) : Upload.reply :=
  match Upload.express_raw (Upload.mb 50) r (Upload.unparsed e) with
  | Upload.Next b => Upload.chunked_handler b
  | Upload.Refuse st => Upload.error_middleware st
  end.

End Configurable.

(** ** The quick variant ([src/unnamed/part_002]) *)

Module Quick.

(** [req.body?.length || 0]: optional chaining gives [undefined] where
    [req.body] is [undefined] or [null]. *)
Definition handler (b : Upload.body) : Upload.reply :=
  match b with
  | Upload.BodyUndefined | Upload.BodyJson Upload.JNull =>
      Upload.Reported (Upload.Value (Upload.JNum 0))
  | _ =>
      match Upload.length_of b with
      | Ok v =>
          if Upload.truthy v then Upload.Reported v
          else Upload.Reported (Upload.Value (Upload.JNum 0))
      | Throw _ => Upload.Reported (Upload.Value (Upload.JNum 0))
      end
  end.

(** [POST /upload] behind [express.raw({ limit: '10mb' })]. *)
Definition upload (e : Upload.express) (r : Upload.request) : Upload.reply :=
  match Upload.express_raw (Upload.mb 10) r (Upload.unparsed e) with
  | Upload.Next b => handler b
  | Upload.Refuse st => Upload.Failed st
  end.

End Quick.

(** ** Measures and shapes used in the further results *)

(** The little-endian value of four bytes. *)
Definition le32_value (b : list Z) : Z :=
  match b with
  | [b0; b1; b2; b3] => b0 + 256 * b1 + 65536 * b2 + 16777216 * b3
  | _ => 0
  end.

(** The words drawn from [Math.random()] from draw [k] on, [n] of them. *)
Definition drawn_words (rng : nat -> Z) (k n : nat) : list Z :=
  map (random_word rng) (seq k n).

(** An upper bound on the events the [sendChunk] loop can still take: two
    per chunk not yet sent, one less while a write is pending. *)
Definition remaining_events (s : Chunked.session) (st : Chunked.state) : Z :=
  match Chunked.inflight st, Chunked.immediates st with
  | w :: _, _ => 2 * (Chunked.chunkCount s - Chunked.w_chunkIndex w) - 1
  | [], i :: _ => 2 * (Chunked.chunkCount s - i)
  | [], [] => 0
  end.

(** What the [sendChunk] loop keeps whatever the sink does: the layout of the
    writes, and the acknowledged bytes below the written bytes below the
    declared total. *)
Definition within_total (s : Chunked.session) (st : Chunked.state) : Prop :=
  Chunked.layout s st
  /\ 0 <= Chunked.sentBytes st <= Chunked.bytes_written st
  /\ Chunked.bytes_written st <= Chunked.bufferSize s.

(** The bytes handed to [res.write] by the progressive loop. *)
Definition progressive_bytes (st : Progressive.state) : Z :=
  foldr (fun b acc => byte_length b + acc) 0 (Progressive.written st).

(** ** Facts about the built-ins and the generator *)

Lemma random_word_range rng k : 0 <= random_word rng k < 4294967295.
Proof. unfold random_word. apply Z.mod_pos_bound. lia. Qed.

Lemma writeUInt32LE_ok buf v i :
  0 <= v <= 4294967295 -> 0 <= i -> i + 4 <= byte_length buf ->
  exists buf', writeUInt32LE buf v i = Ok buf' /\ byte_length buf' = byte_length buf.
Proof.
  intros Hv Hi Hlen. unfold writeUInt32LE.
  replace (v <? 0) with false by (symmetry; lia).
  replace (4294967295 <? v) with false by (symmetry; lia).
  replace (i <? 0) with false by (symmetry; lia).
  replace (byte_length buf <? i + 4) with false by (symmetry; lia).
  cbn [orb].
  eexists. split; [reflexivity|].
  unfold byte_length in *. rewrite !length_app, length_take, length_drop. simpl. lia.
Qed.

Lemma writeUInt32LE_out_of_bounds buf v i :
  byte_length buf < i + 4 -> writeUInt32LE buf v i = Throw RangeError.
Proof.
  intros Hlen. unfold writeUInt32LE.
  destruct ((v <? 0) || (4294967295 <? v)); [reflexivity|].
  replace (byte_length buf <? i + 4) with true by (symmetry; lia).
  now rewrite orb_true_r.
Qed.

Lemma multiple_of_4 n : n mod 4 = 0 -> exists a, n = 4 * a.
Proof.
  intros H. apply Z.mod_divide in H; [|lia]. destruct H as [a ->]. exists a. lia.
Qed.

Lemma iterations_enough size : 0 <= size -> size <= 4 * Z.of_nat (iterations size).
Proof.
  intros Hs. unfold iterations. rewrite Z2Nat.id by (apply Z.div_pos; lia).
  pose proof (Z.div_mod (size + 3) 4 ltac:(lia)) as Hd.
  pose proof (Z.mod_pos_bound (size + 3) 4 ltac:(lia)) as Hb.
  lia.
Qed.

(** On a buffer that is a whole number of words, every write is in range. *)
Lemma fill_words_ok rng size fuel : forall i buf k,
  0 <= i -> i mod 4 = 0 -> size mod 4 = 0 -> byte_length buf = size ->
  size - i <= 4 * Z.of_nat fuel ->
  exists buf' k', fill_words rng size fuel i buf k = Ok (buf', k')
                  /\ byte_length buf' = size.
Proof.
  induction fuel as [|fuel IH]; intros i buf k Hi Hmi Hms Hlen Hfuel; simpl.
  - exists buf, k. auto.
  - destruct (i <? size) eqn:E; [|exists buf, k; auto].
    destruct (multiple_of_4 i Hmi) as [a ->].
    destruct (multiple_of_4 size Hms) as [b Hb].
    pose proof (random_word_range rng k) as Hr.
    destruct (writeUInt32LE_ok buf (random_word rng k) (4 * a)) as (b' & -> & Hb');
      try lia.
    apply IH; try lia.
    replace (4 * a + 4) with (4 * (a + 1)) by lia.
    rewrite Z.mul_comm. apply Z.mod_mul. lia.
Qed.

(** On any other buffer, the write of the last, partial word is not. *)
Lemma fill_words_throws rng size fuel : forall i buf k,
  0 <= i <= size -> i mod 4 = 0 -> size mod 4 <> 0 -> byte_length buf = size ->
  size - i <= 4 * Z.of_nat fuel ->
  fill_words rng size fuel i buf k = Throw RangeError.
Proof.
  induction fuel as [|fuel IH]; intros i buf k Hi Hmi Hms Hlen Hfuel; simpl.
  - assert (i = size) by lia. congruence.
  - destruct (i <? size) eqn:E; [|assert (i = size) by lia; congruence].
    destruct (Z_lt_le_dec size (i + 4)) as [Hs|Hs].
    + rewrite writeUInt32LE_out_of_bounds by lia. reflexivity.
    + pose proof (random_word_range rng k) as Hr.
      destruct (writeUInt32LE_ok buf (random_word rng k) i) as (b' & -> & Hb');
        try lia.
      apply IH; try lia.
      destruct (multiple_of_4 i Hmi) as [a ->].
      replace (4 * a + 4) with (4 * (a + 1)) by lia.
      rewrite Z.mul_comm. apply Z.mod_mul. lia.
Qed.

Lemma Buffer_alloc_length size fill buf :
  Buffer_alloc size fill = Ok buf -> 0 <= size /\ byte_length buf = size.
Proof.
  unfold Buffer_alloc. destruct (size <? 0) eqn:E; [discriminate|].
  intros [= <-]. unfold byte_length. rewrite length_replicate. lia.
Qed.

(** The generator succeeds on every non-negative multiple of four. *)
Lemma generateRandomBuffer_ok rng size k :
  0 <= size -> size mod 4 = 0 ->
  exists buf k', generateRandomBuffer rng size k = Ok (buf, k')
                 /\ byte_length buf = size.
Proof.
  intros Hs Hm. unfold generateRandomBuffer, Buffer_alloc.
  replace (size <? 0) with false by (symmetry; lia).
  apply fill_words_ok; auto; try lia.
  - unfold byte_length. rewrite length_replicate. lia.
  - pose proof (iterations_enough size Hs). lia.
Qed.

(** It throws on every positive size that is not a multiple of four: the last
    iteration writes four bytes where fewer are left. *)
Lemma generateRandomBuffer_throws rng size k :
  0 < size -> size mod 4 <> 0 ->
  generateRandomBuffer rng size k = Throw RangeError.
Proof.
  intros Hs Hm. unfold generateRandomBuffer, Buffer_alloc.
  replace (size <? 0) with false by (symmetry; lia).
  apply fill_words_throws; auto; try lia.
  - unfold byte_length. rewrite length_replicate. lia.
  - pose proof (iterations_enough size ltac:(lia)). lia.
Qed.

Lemma generateRandomBuffer_negative rng size k :
  size < 0 -> generateRandomBuffer rng size k = Throw RangeError.
Proof.
  intros Hs. unfold generateRandomBuffer, Buffer_alloc.
  now replace (size <? 0) with true by (symmetry; lia).
Qed.

(** Whenever it returns, the buffer has the requested length. *)
Lemma generateRandomBuffer_length rng size k buf k' :
  generateRandomBuffer rng size k = Ok (buf, k') ->
  byte_length buf = size /\ 0 <= size /\ size mod 4 = 0.
Proof.
  intros H.
  destruct (Z_lt_le_dec size 0) as [Hn|Hn].
  { rewrite generateRandomBuffer_negative in H by lia. discriminate. }
  destruct (Z.eq_dec (size mod 4) 0) as [Hm|Hm].
  - destruct (generateRandomBuffer_ok rng size k Hn Hm) as (b & kb & Hb & Hl).
    rewrite Hb in H. injection H as <- <-. auto.
  - assert (0 < size).
    { destruct (Z.eq_dec size 0) as [->|]; [exfalso; apply Hm; reflexivity | lia]. }
    rewrite generateRandomBuffer_throws in H by assumption. discriminate.
Qed.

(** ** Arithmetic of [Math.ceil(a / b)] *)

Lemma ceil_div_bounds a b :
  0 < b -> infinite b = false -> (ceil_div a b - 1) * b < a <= ceil_div a b * b.
Proof.
  intros Hb Hfin. unfold ceil_div. rewrite Hfin.
  pose proof (Z.div_mod (- a) b ltac:(lia)) as Hd.
  pose proof (Z.mod_pos_bound (- a) b Hb) as Hm.
  nia.
Qed.

Lemma ceil_div_pos a b :
  0 < a -> 0 < b -> infinite b = false -> 0 < ceil_div a b.
Proof.
  intros Ha Hb Hfin. pose proof (ceil_div_bounds a b Hb Hfin). nia.
Qed.

Lemma ceil_div_nonpos a b :
  0 <= a -> b <= 0 \/ infinite b = true -> ceil_div a b <= 0.
Proof.
  intros Ha Hb. unfold ceil_div.
  destruct (infinite b); [lia|]. destruct Hb as [Hb|Hb]; [|discriminate].
  destruct (Z.eq_dec b 0) as [->|Hb0].
  - rewrite Z.div_0_r. lia.
  - assert (0 <= - a / b); [|lia].
    pose proof (Z.div_mod (- a) b Hb0) as Hd.
    pose proof (Z.mod_neg_bound (- a) b ltac:(lia)) as Hm.
    nia.
Qed.

(** ** The download handler of the chunked variant *)

Lemma or_default_nonzero v d : d <> 0 -> or_default v d <> 0.
Proof.
  intros Hd. unfold or_default. destruct v as [n|]; [|exact Hd].
  destruct (n =? 0) eqn:E; [exact Hd | lia].
Qed.

(** Whatever is streamed was validated: the size is between 1 and 100 MB,
    the declared length is the buffer size, and the chunk size is not 0. *)
Lemma download_streaming q cl s :
  Chunked.download q = Chunked.Streaming cl s ->
  1 <= Chunked.requested_size q <= 100
  /\ cl = Chunked.requested_size q * 1048576
  /\ Chunked.bufferSize s = cl
  /\ Chunked.chunkSize s = or_default (parseInt_param (Chunked.q_chunk q)) 1048576
  /\ Chunked.chunkSize s <> 0.
Proof.
  unfold Chunked.download, Chunked.requested_size.
  set (size := or_default (parseInt_param (Chunked.q_size q)) 10).
  destruct (size >? 100) eqn:E1; [discriminate|].
  destruct (size <? 1) eqn:E2; [discriminate|].
  intros [= <- <-]. simpl.
  repeat split; try lia.
  apply or_default_nonzero. lia.
Qed.

Lemma download_accepts q :
  1 <= Chunked.requested_size q <= 100 ->
  Chunked.download q =
    Chunked.Streaming (Chunked.requested_size q * 1048576)
      {| Chunked.bufferSize := Chunked.requested_size q * 1048576;
         Chunked.chunkSize := or_default (parseInt_param (Chunked.q_chunk q)) 1048576 |}.
Proof.
  unfold Chunked.download, Chunked.requested_size.
  set (size := or_default (parseInt_param (Chunked.q_size q)) 10).
  intros H.
  replace (size >? 100) with false by (symmetry; lia).
  replace (size <? 1) with false by (symmetry; lia).
  replace (size * 1024 * 1024) with (size * 1048576) by lia.
  reflexivity.
Qed.

(** ** The [sendChunk] loop: what holds for every session *)

Section ChunkedBasic.
Import Chunked.
Variable s : session.
Variable rng : nat -> Z.

Lemma sendChunk_one_pending i st :
  inflight st = [] -> immediates st = [] -> one_pending s (sendChunk s rng i st).
Proof.
  intros Hi Hm. unfold sendChunk, one_pending.
  destruct (i >=? chunkCount s); simpl.
  { rewrite Hi, Hm. simpl. split; [lia | constructor]. }
  destruct (generateRandomBuffer _ _ _) as [[buf k]|e] eqn:G; simpl.
  - rewrite Hi, Hm. simpl. split; [lia|].
    repeat constructor. simpl.
    apply generateRandomBuffer_length in G. lia.
  - rewrite Hi, Hm. simpl. split; [lia | constructor].
Qed.

Lemma step_one_pending ev st st' :
  one_pending s st -> step s rng ev st = Some st' -> one_pending s st'.
Proof.
  intros [Hn Hf] Hs. destruct ev as [err|]; simpl in Hs.
  - destruct (inflight st) as [|w rest] eqn:Ei; [discriminate|].
    injection Hs as <-. simpl in Hn.
    assert (rest = []) as -> by (destruct rest; [reflexivity | simpl in Hn; lia]).
    assert (immediates st = []) as Em
      by (destruct (immediates st); [reflexivity | simpl in Hn; lia]).
    unfold write_callback, one_pending.
    destruct err; simpl; [rewrite Em; simpl; split; [lia | constructor]|].
    destruct (_ <? _); simpl; rewrite Em; simpl; split; try lia; constructor.
  - destruct (immediates st) as [|i rest] eqn:Em; [discriminate|].
    injection Hs as <-. simpl in Hn.
    assert (rest = []) as -> by (destruct rest; [reflexivity | simpl in Hn; lia]).
    assert (inflight st = []) as Ei
      by (destruct (inflight st); [reflexivity | simpl in Hn; lia]).
    apply sendChunk_one_pending; simpl; auto.
Qed.

Lemma exec_one_pending evs : forall st st',
  one_pending s st -> exec s rng evs st = Some st' -> one_pending s st'.
Proof.
  induction evs as [|ev evs IH]; intros st st' Hp He; simpl in He.
  - now injection He as <-.
  - destruct (step s rng ev st) as [st1|] eqn:Hs; [|discriminate].
    eapply IH; [|exact He]. eapply step_one_pending; eauto.
Qed.

Lemma start_one_pending : one_pending s (start s rng).
Proof. apply sendChunk_one_pending; reflexivity. Qed.

End ChunkedBasic.

(** ** The [sendChunk] loop: layout of the writes *)

Lemma total_length_app ws ws' :
  Chunked.total_length (ws ++ ws') = Chunked.total_length ws + Chunked.total_length ws'.
Proof.
  induction ws as [|w ws IH]; simpl; [reflexivity|].
  unfold Chunked.total_length in *. simpl. rewrite IH. lia.
Qed.

Lemma contiguous_snoc s ws : forall offset at_ buf,
  Chunked.contiguous s offset ws ->
  at_ = offset + Chunked.total_length ws ->
  byte_length buf = Z.min (Chunked.chunkSize s) (Chunked.bufferSize s - at_) ->
  Chunked.contiguous s offset (ws ++ [(at_, buf)]).
Proof.
  induction ws as [|[a b] ws IH]; intros offset at_ buf Hc Ha Hb; simpl in *.
  - unfold Chunked.total_length in Ha. simpl in Ha.
    replace at_ with offset in * by lia. auto.
  - destruct Hc as (-> & Hl & Hc). repeat split; auto.
    apply IH; auto. unfold Chunked.total_length in *. simpl in Ha. lia.
Qed.

(** Contiguous writes of positive length have strictly growing offsets. *)
Lemma contiguous_increasing s ws : forall offset,
  Chunked.contiguous s offset ws ->
  Forall (fun w => 0 < byte_length (snd w)) ws ->
  Chunked.increasing ws.
Proof.
  induction ws as [|[a b] ws IH]; intros offset Hc Hp; simpl; [exact I|].
  simpl in Hc. destruct Hc as (-> & Hl & Hc).
  apply Forall_cons in Hp as [Hb Hp]. simpl in Hb.
  split; [|eapply IH; eauto].
  destruct ws as [|[a' b'] ws']; [exact I|].
  simpl in Hc. destruct Hc as (-> & _). lia.
Qed.

Section ChunkedLayout.
Import Chunked.
Variable s : session.
Variable rng : nat -> Z.
Hypothesis chunk_positive : 0 < chunkSize s.
Hypothesis chunk_finite : infinite (chunkSize s) = false.
Hypothesis buffer_positive : 0 < bufferSize s.

Lemma chunkCount_bounds :
  (chunkCount s - 1) * chunkSize s < bufferSize s <= chunkCount s * chunkSize s.
Proof. apply ceil_div_bounds; assumption. Qed.

Lemma chunkCount_positive : 0 < chunkCount s.
Proof. apply ceil_div_pos; assumption. Qed.

(** Sending chunk [i] from a state in which the [i] chunks before it have
    been acknowledged. *)
Lemma sendChunk_layout i st :
  contiguous s 0 (written st) ->
  Forall (fun w => 0 < byte_length (snd w)) (written st) ->
  inflight st = [] -> immediates st = [] ->
  ended st = false -> thrown st = false ->
  0 <= i < chunkCount s ->
  sentBytes st = i * chunkSize s ->
  total_length (written st) = sentBytes st ->
  Z.of_nat (length (written st)) = i ->
  layout s (sendChunk s rng i st).
Proof.
  intros Hc Hp Hi Hm He Ht Hr Hs Hl Hn.
  pose proof chunkCount_bounds as Hb.
  assert (i * chunkSize s < bufferSize s) as Hlt by nia.
  unfold sendChunk. replace (i >=? chunkCount s) with false by (symmetry; lia).
  destruct (generateRandomBuffer _ _ _) as [[buf k]|e] eqn:G.
  - apply generateRandomBuffer_length in G as (Hlen & _ & _).
    unfold layout; simpl. rewrite Hi, Hm. simpl.
    split; [apply contiguous_snoc; auto; lia|].
    split; [apply Forall_app; split; auto; repeat constructor; simpl; lia|].
    rewrite total_length_app, length_app. unfold total_length at 2. simpl.
    repeat split; auto; lia.
  - unfold layout; simpl. rewrite Hi, Hm.
    split; [auto|split; [auto|]]. intros E. congruence.
Qed.

Lemma start_layout : layout s (start s rng).
Proof.
  pose proof chunkCount_positive.
  apply sendChunk_layout; simpl; auto; try lia; constructor.
Qed.

Lemma step_layout ev st st' :
  layout s st -> step s rng ev st = Some st' -> layout s st'.
Proof.
  intros (Hc & Hp & Hshape) Hs.
  pose proof chunkCount_bounds as Hb.
  destruct ev as [err|]; simpl in Hs.
  - destruct (inflight st) as [|w rest] eqn:Ei; [discriminate|].
    injection Hs as <-.
    destruct rest; [|destruct Hshape].
    destruct (immediates st) eqn:Em; [|destruct Hshape].
    destruct Hshape as (He & Ht & Hr & Hsb & Hcur & Htot & Hlen).
    unfold write_callback. simpl.
    destruct err.
    { unfold layout; simpl. rewrite ?Em.
      split; [auto|split; [auto|]]. intros E. congruence. }
    destruct (w_chunkIndex w <? chunkCount s - 1) eqn:Elast.
    + assert (w_currentChunkSize w = chunkSize s) as Hfull by nia.
      unfold layout; simpl. rewrite ?Em. simpl.
      repeat split; auto; lia.
    + assert (w_chunkIndex w = chunkCount s - 1) as Hi by lia.
      assert (w_currentChunkSize w = bufferSize s - sentBytes st) as Hrest by nia.
      unfold layout; simpl. rewrite ?Em. simpl.
      repeat split; auto; lia.
  - destruct (immediates st) as [|i rest] eqn:Em; [discriminate|].
    injection Hs as <-.
    destruct (inflight st) eqn:Ei.
    2:{ destruct l; destruct Hshape. }
    destruct rest; [|destruct Hshape].
    destruct Hshape as (He & Ht & Hr & Hsb & Htot & Hlen).
    apply sendChunk_layout; simpl; auto; lia.
Qed.

Lemma exec_layout evs : forall st st',
  layout s st -> exec s rng evs st = Some st' -> layout s st'.
Proof.
  induction evs as [|ev evs IH]; intros st st' Hp He; simpl in He.
  - now injection He as <-.
  - destruct (step s rng ev st) as [st1|] eqn:Hs; [|discriminate].
    eapply IH; [|exact He]. eapply step_layout; eauto.
Qed.

End ChunkedLayout.

(** With a chunk size that is not positive, or is infinite, the chunk count
    is not positive, and [sendChunk(0)] ends the response at once. *)
Lemma start_without_chunks s rng :
  0 <= Chunked.bufferSize s ->
  Chunked.chunkSize s <= 0 \/ infinite (Chunked.chunkSize s) = true ->
  Chunked.start s rng = Chunked.State 0 [] [] [] true false 0.
Proof.
  intros HB Hc. unfold Chunked.start, Chunked.sendChunk.
  pose proof (ceil_div_nonpos _ _ HB Hc) as Hn. fold (Chunked.chunkCount s) in Hn.
  now replace (0 >=? Chunked.chunkCount s) with true by (symmetry; lia).
Qed.

Lemma exec_idle s rng evs st st' :
  Chunked.idle st -> Chunked.exec s rng evs st = Some st' -> st' = st.
Proof.
  intros [Hi Hm] He. destruct evs as [|[err|] evs]; simpl in He.
  - now injection He.
  - rewrite Hi in He. discriminate.
  - rewrite Hm in He. discriminate.
Qed.

(** ** The [sendChunk] loop runs to completion *)

Lemma run_idle s rng errs fuel st :
  Chunked.idle st -> Chunked.run s rng errs fuel st = st.
Proof.
  intros [Hi Hm]. destruct fuel; simpl; [reflexivity|].
  unfold Chunked.next_event. now rewrite Hi, Hm.
Qed.

Section ChunkedRun.
Import Chunked.
Variable s : session.
Variable rng : nat -> Z.
Hypothesis chunk_positive : 0 < chunkSize s.
Hypothesis chunk_finite : infinite (chunkSize s) = false.
Hypothesis buffer_positive : 0 < bufferSize s.
(** Every chunk is a whole number of 32-bit words. *)
Hypothesis buffer_aligned : bufferSize s mod 4 = 0.
Hypothesis chunk_aligned : chunkSize s mod 4 = 0 \/ bufferSize s <= chunkSize s.

Let ok : Z -> bool := fun _ => false.

Lemma chunk_aligned_at i :
  0 <= i < chunkCount s ->
  Z.min (chunkSize s) (bufferSize s - i * chunkSize s) mod 4 = 0
  /\ 0 < Z.min (chunkSize s) (bufferSize s - i * chunkSize s).
Proof.
  intros Hi. pose proof (chunkCount_bounds s chunk_positive chunk_finite) as Hb.
  split; [|nia].
  destruct chunk_aligned as [Hc|Hc].
  - apply Z.mod_divide; [lia|].
    apply Z.mod_divide in Hc; [|lia].
    apply Z.mod_divide in buffer_aligned; [|lia].
    destruct (Z.min_spec (chunkSize s) (bufferSize s - i * chunkSize s))
      as [[_ ->]|[_ ->]]; [assumption|].
    apply Z.divide_sub_r; [assumption|]. now apply Z.divide_mul_r.
  - assert (i = 0) as -> by nia.
    rewrite Z.mul_0_l, Z.sub_0_r, Z.min_r by lia. exact buffer_aligned.
Qed.

Lemma sendChunk_writes i st :
  0 <= i < chunkCount s -> sentBytes st = i * chunkSize s -> inflight st = [] ->
  exists w, inflight (sendChunk s rng i st) = [w] /\ w_chunkIndex w = i.
Proof.
  intros Hi Hs Hf. unfold sendChunk.
  replace (i >=? chunkCount s) with false by (symmetry; lia).
  rewrite Hs. destruct (chunk_aligned_at i Hi) as [Hm Hp].
  destruct (generateRandomBuffer_ok rng _ (draws st) (Z.lt_le_incl _ _ Hp) Hm)
    as (buf & k' & -> & _).
  simpl. rewrite Hf. eexists. split; reflexivity.
Qed.

Lemma run_write errs fuel st w rest :
  inflight st = w :: rest ->
  run s rng errs (S fuel) st =
    run s rng errs fuel
      (write_callback s w (errs (w_chunkIndex w))
         (State (sentBytes st) (written st) rest (immediates st) (ended st)
            (thrown st) (draws st))).
Proof.
  intros Hi. cbn [run]. unfold next_event. rewrite Hi. cbn [step]. now rewrite Hi.
Qed.

Lemma run_immediate errs fuel st i rest :
  inflight st = [] -> immediates st = i :: rest ->
  run s rng errs (S fuel) st =
    run s rng errs fuel
      (sendChunk s rng i
         (State (sentBytes st) (written st) (inflight st) rest (ended st)
            (thrown st) (draws st))).
Proof.
  intros Hi Hm. cbn [run]. unfold next_event. rewrite Hi, Hm. cbn [step].
  now rewrite Hm, Hi.
Qed.

Lemma run_from_write k : forall st w fuel,
  layout s st -> inflight st = [w] ->
  Z.of_nat k = chunkCount s - 1 - w_chunkIndex w ->
  (2 * k + 1 <= fuel)%nat ->
  layout s (run s rng ok fuel st)
  /\ ended (run s rng ok fuel st) = true
  /\ idle (run s rng ok fuel st).
Proof.
  induction k as [|k IH]; intros st w fuel Hl Hi Hk Hfuel.
  - destruct fuel as [|fuel]; [lia|].
    rewrite (run_write _ _ _ _ _ Hi).
    assert (Hs : step s rng (WriteDone false) st
                 = Some (write_callback s w false
                           (State (sentBytes st) (written st) [] (immediates st)
                              (ended st) (thrown st) (draws st))))
      by (simpl; now rewrite Hi).
    pose proof (step_layout s rng chunk_positive chunk_finite buffer_positive _ _ _ Hl Hs) as Hl1.
    unfold ok. unfold write_callback in *.
    replace (w_chunkIndex w <? chunkCount s - 1) with false in * by (symmetry; lia).
    destruct Hl as (_ & _ & Hshape). rewrite Hi in Hshape.
    destruct (immediates st) eqn:Em; [|destruct Hshape].
    rewrite run_idle by (split; reflexivity).
    split; [exact Hl1 | split; [reflexivity | split; reflexivity]].
  - destruct fuel as [|[|fuel]]; try lia.
    rewrite (run_write _ _ _ _ _ Hi).
    assert (Hs : step s rng (WriteDone false) st
                 = Some (write_callback s w false
                           (State (sentBytes st) (written st) [] (immediates st)
                              (ended st) (thrown st) (draws st))))
      by (simpl; now rewrite Hi).
    pose proof (step_layout s rng chunk_positive chunk_finite buffer_positive _ _ _ Hl Hs) as Hl1.
    unfold ok. clear Hs. unfold write_callback in *.
    replace (w_chunkIndex w <? chunkCount s - 1) with true in * by (symmetry; lia).
    destruct Hl as (_ & _ & Hshape). rewrite Hi in Hshape.
    destruct (immediates st) eqn:Em; [|destruct Hshape].
    simpl app in *.
    set (st1 := State (sentBytes st + w_currentChunkSize w) (written st) []
                  [w_chunkIndex w + 1] (ended st) (thrown st) (draws st)) in *.
    rewrite (run_immediate _ _ st1 (w_chunkIndex w + 1) []) by reflexivity.
    assert (Hs2 : step s rng Immediate st1
                  = Some (sendChunk s rng (w_chunkIndex w + 1)
                            (State (sentBytes st1) (written st1) (inflight st1) []
                               (ended st1) (thrown st1) (draws st1))))
      by reflexivity.
    pose proof (step_layout s rng chunk_positive chunk_finite buffer_positive _ _ _ Hl1 Hs2) as Hl2.
    destruct Hl1 as (_ & _ & Hshape1). simpl in Hshape1.
    destruct Hshape1 as (_ & _ & Hr1 & Hsb1 & _).
    destruct (sendChunk_writes (w_chunkIndex w + 1)
                (State (sentBytes st1) (written st1) (inflight st1) []
                   (ended st1) (thrown st1) (draws st1))
                ltac:(lia) Hsb1 eq_refl)
      as (w2 & Hw2 & Hidx).
    apply (IH _ w2 fuel Hl2 Hw2); lia.
Qed.

(** With a sink that accepts every write, the loop ends the response after
    exactly [chunkCount] writes that add up to [bufferSize] bytes. *)
Lemma sendChunk_completes :
  forall fuel st, (Z.to_nat (2 * chunkCount s) <= fuel)%nat ->
  st = run s rng ok fuel (start s rng) ->
  ended st = true /\ thrown st = false /\ idle st
  /\ sentBytes st = bufferSize s
  /\ bytes_written st = bufferSize s
  /\ Z.of_nat (length (written st)) = chunkCount s
  /\ contiguous s 0 (written st)
  /\ increasing (written st).
Proof.
  intros fuel st Hfuel ->.
  pose proof (chunkCount_positive s chunk_positive chunk_finite buffer_positive) as Hn.
  destruct (sendChunk_writes 0 init ltac:(lia) eq_refl eq_refl) as (w & Hw & Hidx).
  fold (start s rng) in Hw.
  pose proof (start_layout s rng chunk_positive chunk_finite buffer_positive) as Hl.
  destruct (run_from_write (Z.to_nat (chunkCount s - 1)) (start s rng) w fuel)
    as (Hl' & He & Hidle); auto; try lia.
  destruct Hidle as [Hi Hm].
  destruct Hl' as (Hc & Hp & Hshape). rewrite Hi, Hm in Hshape.
  destruct (Hshape He) as (Ht & Hs & Htot & Hlen).
  repeat split; auto.
  eapply contiguous_increasing; eauto.
Qed.

End ChunkedRun.

(** ** [GET /download]: what a request gets *)

Lemma falls_back_default q d : falls_back q -> or_default (parseInt_param q) d = d.
Proof.
  intros [->|(str & -> & [H|H])]; simpl.
  - reflexivity.
  - now rewrite H.
  - now rewrite H.
Qed.

(** A streamed download delivers its declared length when the chunk size is
    a positive integer and every chunk is a whole number of 32-bit words. *)
Lemma download_delivers_exactly q cl s rng fuel st :
  Chunked.download q = Chunked.Streaming cl s ->
  positive_integer (Chunked.chunkSize s) ->
  Chunked.chunkSize s mod 4 = 0 \/ Chunked.bufferSize s <= Chunked.chunkSize s ->
  (Z.to_nat (2 * Chunked.chunkCount s) <= fuel)%nat ->
  st = Chunked.run s rng (fun _ => false) fuel (Chunked.start s rng) ->
  Chunked.ended st = true /\ Chunked.thrown st = false /\ Chunked.idle st
  /\ Chunked.bytes_written st = Chunked.requested_size q * 1048576
  /\ cl = Chunked.requested_size q * 1048576
  /\ Z.of_nat (length (Chunked.written st)) = Chunked.chunkCount s.
Proof.
  intros Hd [Hc Hfin] Ha Hfuel Hst.
  destruct (download_streaming q cl s Hd) as (Hsize & Hcl & HB & _ & _).
  assert (0 < Chunked.bufferSize s) as HBpos by lia.
  assert (Chunked.bufferSize s mod 4 = 0) as Hal.
  { rewrite HB, Hcl. change 1048576 with (262144 * 4).
    rewrite Z.mul_assoc. apply Z.mod_mul. lia. }
  destruct (sendChunk_completes s rng Hc Hfin HBpos Hal Ha fuel st Hfuel Hst)
    as (He & Ht & Hi & _ & Hw & Hn & _).
  repeat split; auto; try apply Hi. lia.
Qed.

Lemma simple_download_sends qs :
  0 <= Simple.requested_size qs ->
  exists body,
    Simple.download qs =
      Ok {| Simple.status := 200;
            Simple.contentLength := Z.min (Simple.requested_size qs) 20 * 1048576;
            Simple.body := body |}
    /\ byte_length body = Z.min (Simple.requested_size qs) 20 * 1048576.
Proof.
  intros Hs. unfold Simple.download, Simple.requested_size in *.
  set (size := or_default (parseInt_param qs) 5) in *.
  replace (Z.min size 20 * 1024 * 1024) with (Z.min size 20 * 1048576) by lia.
  unfold Buffer_alloc.
  replace (Z.min size 20 * 1048576 <? 0) with false by (symmetry; lia).
  eexists. split; [reflexivity|].
  unfold byte_length. rewrite length_replicate. lia.
Qed.

(** C1: the claim fails on the request [GET /download?size=1&chunk=-1].  The
    size is valid and [Content-Length] is set to 1048576, but the chunk count
    is [Math.ceil(1048576 / -1) = -1048576], so [sendChunk(0)] ends the
    response at once: no byte is written and no task is left pending. *)
Theorem C1_negative_chunk_ends_empty (rng : nat -> Z) :
  let q := {| Chunked.q_size := Some "1"; Chunked.q_chunk := Some "-1" |} in
  let s := {| Chunked.bufferSize := 1048576; Chunked.chunkSize := -1 |} in
  Chunked.requested_size q = 1
  /\ Chunked.download q = Chunked.Streaming 1048576 s
  /\ Chunked.chunkCount s = -1048576
  /\ Chunked.start s rng = Chunked.State 0 [] [] [] true false 0
  /\ Chunked.bytes_written (Chunked.start s rng) = 0
  /\ forall ev, Chunked.step s rng ev (Chunked.start s rng) = None.
Proof.
  intros q s.
  assert (Hstart : Chunked.start s rng = Chunked.State 0 [] [] [] true false 0)
    by (apply start_without_chunks; simpl; [lia | left; lia]).
  repeat split; try reflexivity; try exact Hstart.
  intros [err|]; now rewrite Hstart.
Qed.

(** C2: the claim fails on every accepted request whose chunk parameter
    parses to a negative number, such as [GET /download?size=2&chunk=-7].
    The handler checks the size but not the chunk: [Content-Length] declares
    the full size, while the chunk count [Math.ceil(bufferSize / chunkSize)]
    is not positive, so [sendChunk(0)] ends the response before any write.
    The session has no further event, and in its only state the chunks
    written add up to 0 bytes, not to the declared total. *)
Theorem C2_negative_chunk_writes_nothing (q : Chunked.download_query) (cl : Z)
    (s : Chunked.session) (n : Z) (rng : nat -> Z)
    (evs : list Chunked.event) (st : Chunked.state) :
  Chunked.download q = Chunked.Streaming cl s ->
  parseInt_param (Chunked.q_chunk q) = Some n ->
  n < 0 ->
  Chunked.exec s rng evs (Chunked.start s rng) = Some st ->
  Chunked.chunkSize s = n
  /\ Chunked.chunkCount s <= 0
  /\ evs = []
  /\ Chunked.ended st = true
  /\ Chunked.written st = []
  /\ Chunked.bytes_written st = 0
  /\ 1048576 <= cl.
Proof.
  intros Hd Hp Hn He.
  destruct (download_streaming q cl s Hd) as (Hsize & Hcl & HB & Hc & _).
  assert (Hcn : Chunked.chunkSize s = n).
  { rewrite Hc, Hp. unfold or_default.
    now replace (n =? 0) with false by (symmetry; lia). }
  assert (Hcount : Chunked.chunkCount s <= 0)
    by (apply ceil_div_nonpos; [lia | left; lia]).
  rewrite start_without_chunks in He by (auto; lia).
  destruct evs as [|[err|] evs]; simpl in He; try discriminate.
  injection He as <-.
  repeat split; auto; lia.
Qed.

(** C2, at [GET /download?size=2&chunk=-7]: 2097152 bytes declared, none
    written. *)
Lemma C2_witness :
  let s := {| Chunked.bufferSize := 2097152; Chunked.chunkSize := -7 |} in
  let st := Chunked.State 0 [] [] [] true false 0 in
  Chunked.chunkSize s = -7
  /\ Chunked.chunkCount s <= 0
  /\ @nil Chunked.event = []
  /\ Chunked.ended st = true
  /\ Chunked.written st = []
  /\ Chunked.bytes_written st = 0
  /\ 1048576 <= 2097152.
Proof.
  intros s st.
  apply (C2_negative_chunk_writes_nothing
           {| Chunked.q_size := Some "2"; Chunked.q_chunk := Some "-7" |}
           2097152 s (-7) (fun k => Z.of_nat k) [] st).
  - reflexivity.
  - reflexivity.
  - lia.
  - reflexivity.
Defined.

(** C3: the claim fails for [n = 5]: the second iteration of the loop calls
    [writeUInt32LE] at offset 4 of a 5-byte buffer, which throws. *)
Theorem C3_generateRandomBuffer_5_throws (rng : nat -> Z) (k : nat) :
  generateRandomBuffer rng 5 k = Throw RangeError.
Proof. apply generateRandomBuffer_throws; [lia | discriminate]. Qed.

(** C9: the claim fails on the request [GET /download?size=1&chunk=3].  The
    size is valid and the chunk size is at least 1, but
    [generateRandomBuffer(3)] throws in [sendChunk(0)]: none of the 349526
    writes is made, the response is not ended, and nothing is left pending. *)
Theorem C9_unaligned_chunk_throws (rng : nat -> Z) :
  let q := {| Chunked.q_size := Some "1"; Chunked.q_chunk := Some "3" |} in
  let s := {| Chunked.bufferSize := 1048576; Chunked.chunkSize := 3 |} in
  Chunked.download q = Chunked.Streaming 1048576 s
  /\ Chunked.chunkCount s = 349526
  /\ Chunked.start s rng = Chunked.State 0 [] [] [] false true 0
  /\ forall ev, Chunked.step s rng ev (Chunked.start s rng) = None.
Proof.
  intros q s.
  assert (Hstart : Chunked.start s rng = Chunked.State 0 [] [] [] false true 0).
  { unfold Chunked.start, Chunked.sendChunk.
    change (0 >=? Chunked.chunkCount s) with false. cbv iota.
    change (Z.min (Chunked.chunkSize s) (Chunked.bufferSize s - Chunked.sentBytes Chunked.init))
      with 3.
    rewrite generateRandomBuffer_throws by (try lia; discriminate).
    reflexivity. }
  repeat split; try reflexivity; try exact Hstart.
  intros [err|]; now rewrite Hstart.
Qed.



(** C4, as stated, fails on [src/server.js]: the request
    [GET /download?size=21] exceeds the maximum of 20 and is answered with
    status 200 and a body of 20 MB, the size clamped by [Math.min]. *)
Lemma C4_counterexample :
  20 < Simple.requested_size (Some "21"%string)
  /\ exists body,
       Simple.download (Some "21"%string) =
         Ok {| Simple.status := 200; Simple.contentLength := 20971520;
               Simple.body := body |}
       /\ byte_length body = 20971520.
Proof.
  split; [reflexivity|].
  destruct (simple_download_sends (Some "21"%string)) as (body & Hb & Hl).
  - discriminate.
  - exists body. split; [exact Hb | exact Hl].
Qed.

(** C4, amended: the chunked variant answers a size above its maximum of 100
    with status 400 and the message naming the bound, and starts no stream;
    [src/server.js] answers a size above its maximum of 20 with status 200
    and exactly 20 MB. *)
Theorem C4_oversize_rejected_or_clamped (q : Chunked.download_query)
    (qs : option string) :
  100 < Chunked.requested_size q ->
  20 < Simple.requested_size qs ->
  Chunked.download q = Chunked.Rejected 400 "Maximum download size is 100MB"
  /\ exists body,
       Simple.download qs =
         Ok {| Simple.status := 200; Simple.contentLength := 20971520;
               Simple.body := body |}
       /\ byte_length body = 20971520.
Proof.
  intros Hq Hqs. split.
  - unfold Chunked.download, Chunked.requested_size in *.
    now replace (or_default (parseInt_param (Chunked.q_size q)) 10 >? 100)
      with true by (symmetry; lia).
  - destruct (simple_download_sends qs ltac:(lia)) as (body & Hb & Hl).
    rewrite Z.min_r in * by lia. exists body. split; [exact Hb | exact Hl].
Qed.

(** C4 amended, at [GET /download?size=500] and [GET /download?size=21]. *)
Lemma C4_witness :
  Chunked.download {| Chunked.q_size := Some "500"; Chunked.q_chunk := None |}
    = Chunked.Rejected 400 "Maximum download size is 100MB"
  /\ exists body,
       Simple.download (Some "21"%string) =
         Ok {| Simple.status := 200; Simple.contentLength := 20971520;
               Simple.body := body |}
       /\ byte_length body = 20971520.
Proof.
  apply (C4_oversize_rejected_or_clamped
           {| Chunked.q_size := Some "500"; Chunked.q_chunk := None |}
           (Some "21"%string)).
  - reflexivity.
  - reflexivity.
Defined.

(** ** The [sendNextChunk] loop *)

Lemma progressive_chunk_ok rng k :
  exists buf k',
    generateRandomBuffer rng Progressive.chunkSize k = Ok (buf, k')
    /\ byte_length buf = Progressive.chunkSize.
Proof. apply generateRandomBuffer_ok; [discriminate | reflexivity]. Qed.

Section ProgressiveLoop.
Import Progressive.
Variable duration : Z.
Variable clock : nat -> Z.
Variable rng : nat -> Z.

Lemma sendNextChunk_reached st :
  duration <= elapsed clock (reads st) ->
  sendNextChunk duration clock rng st =
    State (written st) (inflight st) (immediates st) true (thrown st)
      (draws st) (S (reads st)).
Proof.
  intros H. unfold sendNextChunk, startTime, elapsed in *.
  now replace (clock (reads st) - clock 0%nat >=? duration) with true
    by (symmetry; lia).
Qed.

Lemma sendNextChunk_not_reached st :
  elapsed clock (reads st) < duration ->
  exists buf k,
    byte_length buf = chunkSize
    /\ sendNextChunk duration clock rng st =
         State (written st ++ [buf]) (inflight st ++ [buf]) (immediates st)
           (ended st) (thrown st) k (S (reads st)).
Proof.
  intros H. unfold sendNextChunk, startTime, elapsed in *.
  replace (clock (reads st) - clock 0%nat >=? duration) with false
    by (symmetry; lia).
  destruct (progressive_chunk_ok rng (draws st)) as (buf & k' & -> & Hl).
  now exists buf, k'.
Qed.

(** A deadline check made while nothing is pending and the response is
    open. *)
Lemma sendNextChunk_steady st :
  steady duration clock st -> inflight st = [] -> immediates st = O -> ended st = false ->
  steady duration clock (sendNextChunk duration clock rng st).
Proof.
  intros (_ & Ht & j & Hr & Hs) Hi Hm He. rewrite He in Hs.
  destruct Hs as (Hbefore & Hlen).
  destruct (Z_lt_le_dec (elapsed clock (reads st)) duration) as [Hlt|Hge].
  - destruct (sendNextChunk_not_reached st Hlt) as (buf & k & Hl & ->).
    split; [split|split]; simpl; auto.
    + rewrite Hi, Hm. simpl. lia.
    + rewrite Hi. repeat constructor. exact Hl.
    + exists (S j). rewrite He, Hr. split; [reflexivity|]. split.
      * intros i Hi'. destruct (Nat.eq_dec i (S j)) as [->|].
        -- now rewrite <- Hr.
        -- apply Hbefore. lia.
      * rewrite length_app, Hlen. simpl. lia.
  - rewrite (sendNextChunk_reached st Hge).
    split; [split|split]; simpl; auto.
    + rewrite Hi, Hm. simpl. lia.
    + rewrite Hi. constructor.
    + exists (S j). rewrite Hr. split; [reflexivity|].
      split; [lia|]. split; [now rewrite <- Hr|].
      split; [intros i Hi'; apply Hbefore; lia|].
      split; [lia|]. auto.
Qed.

Lemma init_steady : steady duration clock init.
Proof.
  split; [split; simpl; [lia | constructor]|].
  split; [reflexivity|]. exists O. simpl. repeat split; auto. intros i Hi'. lia.
Qed.

Lemma start_steady : steady duration clock (start duration clock rng).
Proof. apply sendNextChunk_steady; auto using init_steady. Qed.

Lemma step_steady ev st st' :
  steady duration clock st -> step duration clock rng ev st = Some st' -> steady duration clock st'.
Proof.
  intros Hst Hs. pose proof Hst as ((Hn & Hf) & Ht & j & Hr & Hsched).
  destruct ev as [err|]; simpl in Hs.
  - destruct (inflight st) as [|b rest] eqn:Ei; [discriminate|].
    injection Hs as <-. simpl in Hn.
    assert (rest = []) as -> by (destruct rest; [reflexivity | simpl in Hn; lia]).
    assert (immediates st = O) as Em by lia.
    destruct (ended st) eqn:He.
    { destruct Hsched as (_ & _ & _ & _ & Hno & _). discriminate. }
    unfold write_callback.
    destruct err; simpl.
    + unfold steady, one_pending, on_schedule. simpl. rewrite Em.
      split; [split; [lia | exact (List.Forall_nil _)]|].
      split; [exact Ht|]. exists j. auto.
    + unfold steady, one_pending, on_schedule. simpl. rewrite Em.
      split; [split; [lia | exact (List.Forall_nil _)]|].
      split; [exact Ht|]. exists j. auto.
  - destruct (immediates st) as [|n] eqn:Em; [discriminate|].
    injection Hs as <-.
    assert (inflight st = []) as Ei
      by (destruct (inflight st); [reflexivity | simpl in Hn; lia]).
    assert (n = O) as -> by lia.
    destruct (ended st) eqn:He.
    { destruct Hsched as (_ & _ & _ & _ & _ & Hno). discriminate. }
    apply sendNextChunk_steady; simpl; auto.
    unfold steady, one_pending, on_schedule. simpl. rewrite ?Ei.
    split; [split; [simpl; lia | exact (List.Forall_nil _)]|].
    split; [exact Ht|]. exists j. auto.
Qed.

Lemma exec_steady evs : forall st st',
  steady duration clock st -> exec duration clock rng evs st = Some st' -> steady duration clock st'.
Proof.
  induction evs as [|ev evs IH]; intros st st' Hp He; simpl in He.
  - now injection He as <-.
  - destruct (step duration clock rng ev st) as [st1|] eqn:Hs; [|discriminate].
    eapply IH; [|exact He]. eapply step_steady; eauto.
Qed.

(** *** The loop closes the response at the first check that finds the
        deadline reached *)

Let ok : nat -> bool := fun _ => false.

Lemma run_quiet fuel st :
  inflight st = [] -> immediates st = O ->
  run duration clock rng ok fuel st = st.
Proof.
  intros Hi Hm. destruct fuel; simpl; [reflexivity|].
  unfold next_event. now rewrite Hi, Hm.
Qed.

Lemma run_round fuel st buf :
  inflight st = [buf] -> immediates st = O ->
  run duration clock rng ok (S (S fuel)) st =
    run duration clock rng ok fuel
      (sendNextChunk duration clock rng
         (State (written st) [] O (ended st) (thrown st) (draws st) (reads st))).
Proof.
  intros Hi Hm. cbn [run]. unfold next_event at 1. rewrite Hi. cbn [step].
  rewrite Hi. unfold ok at 1, write_callback. simpl. rewrite Hm. reflexivity.
Qed.

Lemma run_until_deadline k : forall st j fuel,
  inflight st = [] -> immediates st = O -> ended st = false ->
  (reads st + k = j)%nat ->
  duration <= elapsed clock j ->
  (forall i, (reads st <= i < j)%nat -> elapsed clock i < duration) ->
  (2 * k <= fuel)%nat ->
  exists st',
    run duration clock rng ok fuel (sendNextChunk duration clock rng st) = st'
    /\ ended st' = true /\ reads st' = S j
    /\ length (written st') = (length (written st) + k)%nat
    /\ inflight st' = [] /\ immediates st' = O.
Proof.
  induction k as [|k IH]; intros st j fuel Hi Hm He Hj Hd Hb Hfuel.
  - rewrite Nat.add_0_r in Hj. subst j.
    rewrite (sendNextChunk_reached st Hd), run_quiet by (simpl; auto).
    eexists. split; [reflexivity|]. simpl. repeat split; auto.
  - destruct fuel as [|[|fuel]]; try lia.
    destruct (sendNextChunk_not_reached st) as (buf & d & Hl & ->).
    { apply Hb. lia. }
    rewrite (run_round _ _ buf) by (simpl; rewrite ?Hi; auto).
    simpl.
    destruct (IH (State (written st ++ [buf]) [] O (ended st) (thrown st) d
                    (S (reads st))) j fuel)
      as (st' & Hrun & He' & Hr' & Hw' & Hi' & Hm'); simpl; auto; try lia.
    { intros i Hi''. apply Hb. lia. }
    exists st'. simpl in Hw'. rewrite length_app in Hw'. simpl in Hw'.
    repeat split; auto. lia.
Qed.

End ProgressiveLoop.

(** C6, as stated, fails for the duration value 0: [parseInt] yields 0, which
    [||] replaces by 5000.  With a clock that advances one millisecond per
    reading, the first deadline check finds 1 ms elapsed, at least the
    requested 0 ms, yet the response is left open and a chunk is written. *)
Lemma C6_counterexample :
  let clock := fun k : nat => Z.of_nat k in
  let rng := fun _ : nat => 0 in
  let st := Progressive.start (Progressive.effective_duration (Some "0"%string))
              clock rng in
  parseInt_param (Some "0"%string) = Some 0
  /\ 0 <= Progressive.elapsed clock 1
  /\ Progressive.ended st = false
  /\ length (Progressive.written st) = 1%nat.
Proof.
  intros clock rng st.
  split; [reflexivity|]. split; [discriminate|].
  destruct (sendNextChunk_not_reached 5000 clock rng Progressive.init)
    as (buf & k & _ & Hs); [reflexivity|].
  subst st. change (Progressive.effective_duration (Some "0"%string)) with 5000.
  unfold Progressive.start. rewrite Hs. split; reflexivity.
Qed.

(** C6, amended: the effective duration is the parsed value when that is a
    number other than 0, and 5000 ms otherwise.  Whenever the server has
    ended the response, the deadline check that ended it read an elapsed time
    of at least the effective duration, and every earlier check had read less
    and written a chunk.  With a sink that accepts every write, the loop ends
    the response at the first check whose reading reaches the effective
    duration, after one chunk per earlier check. *)
Theorem C6_progressive_deadline (q_duration : option string)
    (clock rng : nat -> Z) (j : nat) (evs : list Progressive.event)
    (st : Progressive.state) (fuel : nat) :
  let d := Progressive.effective_duration q_duration in
  (1 <= j)%nat ->
  d <= Progressive.elapsed clock j ->
  (forall i, (1 <= i < j)%nat -> Progressive.elapsed clock i < d) ->
  Progressive.exec d clock rng evs (Progressive.start d clock rng) = Some st ->
  (2 * (j - 1) <= fuel)%nat ->
  (forall n, parseInt_param q_duration = Some n -> n <> 0 -> d = n)
  /\ (falls_back q_duration -> d = 5000)
  /\ (Progressive.ended st = true ->
      Progressive.reads st = S j
      /\ d <= Progressive.elapsed clock j
      /\ length (Progressive.written st) = (j - 1)%nat)
  /\ (let st' := Progressive.run d clock rng (fun _ => false) fuel
                   (Progressive.start d clock rng) in
      Progressive.ended st' = true
      /\ Progressive.reads st' = S j
      /\ length (Progressive.written st') = (j - 1)%nat).
Proof.
  intros d Hj Hd Hb He Hfuel.
  split; [|split; [|split]].
  - intros n Hn Hn0. unfold d, Progressive.effective_duration, or_default.
    rewrite Hn. destruct (n =? 0) eqn:E; [lia | reflexivity].
  - intros Hf. apply falls_back_default, Hf.
  - intros Hend.
    pose proof (exec_steady d clock rng evs _ _ (start_steady d clock rng) He)
      as (_ & _ & j' & Hr & Hs).
    rewrite Hend in Hs. destruct Hs as (Hj' & Hd' & Hb' & Hlen & _).
    assert (j' = j) as ->.
    { destruct (Nat.lt_trichotomy j' j) as [Hlt|[Heq|Hgt]]; [|exact Heq|].
      - specialize (Hb j' ltac:(lia)). lia.
      - specialize (Hb' j ltac:(lia)). lia. }
    auto.
  - assert (Hb' : forall i, (Progressive.reads Progressive.init <= i < j)%nat ->
                         Progressive.elapsed clock i < d)
      by (intros i Hi; apply Hb; simpl in Hi; lia).
    destruct (run_until_deadline d clock rng (j - 1) Progressive.init j fuel
                eq_refl eq_refl eq_refl ltac:(simpl; lia) Hd Hb' Hfuel)
      as (st' & Hrun & Hend & Hr & Hlen & _).
    unfold Progressive.start. rewrite Hrun. auto.
Qed.

(** C6 amended, at [GET /download-progressive?duration=2500] with a clock
    that advances one second per reading: the third check closes the
    response. *)
Lemma C6_witness :
  let clock := fun k : nat => 1000 * Z.of_nat k in
  let rng := fun _ : nat => 0 in
  let d := Progressive.effective_duration (Some "2500"%string) in
  let st := Progressive.start d clock rng in
  (forall n, parseInt_param (Some "2500"%string) = Some n -> n <> 0 -> d = n)
  /\ (falls_back (Some "2500"%string) -> d = 5000)
  /\ (Progressive.ended st = true ->
      Progressive.reads st = 4%nat
      /\ d <= Progressive.elapsed clock 3
      /\ length (Progressive.written st) = 2%nat)
  /\ (let st' := Progressive.run d clock rng (fun _ => false) 4
                   (Progressive.start d clock rng) in
      Progressive.ended st' = true
      /\ Progressive.reads st' = 4%nat
      /\ length (Progressive.written st') = 2%nat).
Proof.
  intros clock rng d st.
  apply (C6_progressive_deadline (Some "2500"%string) clock rng 3 [] st 4).
  - lia.
  - vm_compute. discriminate.
  - intros i Hi. assert (i = 1 \/ i = 2)%nat as [-> | ->] by lia; reflexivity.
  - reflexivity.
  - simpl. lia.
Defined.

(** C8: in every state either sending loop reaches, at most one chunk buffer
    is held by a write that has not been acknowledged, that buffer is no
    longer than a chunk, and no send is queued while a write is pending: the
    next chunk is generated only after the acknowledgement. *)
Theorem C8_one_chunk_in_flight (s : Chunked.session) (rng : nat -> Z)
    (evs : list Chunked.event) (st : Chunked.state)
    (duration : Z) (clock : nat -> Z) (evs' : list Progressive.event)
    (st' : Progressive.state) :
  Chunked.exec s rng evs (Chunked.start s rng) = Some st ->
  Progressive.exec duration clock rng evs' (Progressive.start duration clock rng)
    = Some st' ->
  ((length (Chunked.inflight st) <= 1)%nat
   /\ Forall (fun w => byte_length (Chunked.w_chunkBuffer w) <= Chunked.chunkSize s)
        (Chunked.inflight st)
   /\ (Chunked.immediates st <> [] -> Chunked.inflight st = []))
  /\ ((length (Progressive.inflight st') <= 1)%nat
      /\ Forall (fun b => byte_length b = 1048576) (Progressive.inflight st')
      /\ (Progressive.immediates st' <> O -> Progressive.inflight st' = [])).
Proof.
  intros He He'. split.
  - pose proof (exec_one_pending s rng evs _ _ (start_one_pending s rng) He)
      as (Hn & Hf).
    split; [lia|]. split; [exact Hf|].
    intros Hm. destruct (Chunked.inflight st); [reflexivity|].
    destruct (Chunked.immediates st); [congruence | simpl in Hn; lia].
  - pose proof (exec_steady duration clock rng evs' _ _
                  (start_steady duration clock rng) He') as ((Hn & Hf) & _).
    split; [lia|]. split; [exact Hf|].
    intros Hm. destruct (Progressive.inflight st'); [reflexivity|].
    simpl in Hn. lia.
Qed.

(** C8, in the states in which the two handlers return. *)
Lemma C8_witness :
  let s := {| Chunked.bufferSize := 1048576; Chunked.chunkSize := 1048576 |} in
  let rng := fun _ : nat => 0 in
  let clock := fun k : nat => Z.of_nat k in
  let st := Chunked.start s rng in
  let st' := Progressive.start 5000 clock rng in
  ((length (Chunked.inflight st) <= 1)%nat
   /\ Forall (fun w => byte_length (Chunked.w_chunkBuffer w) <= Chunked.chunkSize s)
        (Chunked.inflight st)
   /\ (Chunked.immediates st <> [] -> Chunked.inflight st = []))
  /\ ((length (Progressive.inflight st') <= 1)%nat
      /\ Forall (fun b => byte_length b = 1048576) (Progressive.inflight st')
      /\ (Progressive.immediates st' <> O -> Progressive.inflight st' = [])).
Proof.
  intros s rng clock st st'.
  apply (C8_one_chunk_in_flight s rng [] st 5000 clock [] st').
  - reflexivity.
  - reflexivity.
Defined.

(** ** Uploads *)

Lemma payload_length (r : Upload.request) :
  byte_length (Upload.payload r)
  = foldr (fun w acc => byte_length w + acc) 0 (Upload.writes r).
Proof.
  unfold Upload.payload, byte_length.
  induction (Upload.writes r) as [|w ws IH]; simpl; [reflexivity|].
  rewrite length_app, Nat2Z.inj_add, IH. reflexivity.
Qed.

(** C7, as stated, fails on the first variant, which installs only
    [express.json]: a 5-byte octet-stream body is not parsed, and the handler
    reports the length of the serialised [req.body] (2 for the empty object
    of Express 4) or fails (Express 5), whatever [JSON.parse] is. *)
Lemma C7_counterexample :
  let r := {| Upload.contentType := Upload.OctetStream;
              Upload.framed := Upload.ContentLength;
              Upload.writes := [[1; 2; 3]; [4; 5]] |} in
  byte_length (Upload.payload r) = 5
  /\ forall (JSON_parse : list Z -> option Upload.json) (e : Upload.express),
       Upload.first_upload JSON_parse e r
       = match e with
         | Upload.Express4 => Upload.Reported (Upload.Value (Upload.JNum 2))
         | Upload.Express5 => Upload.Failed 500
         end
       /\ Upload.first_upload JSON_parse e r
          <> Upload.Reported (Upload.Value (Upload.JNum 5)).
Proof.
  intros r. split; [reflexivity|].
  intros JSON_parse [|]; split; try reflexivity; discriminate.
Qed.

(** C7, amended: for a body sent with the content type
    [application/octet-stream], framed by a Content-Length header or chunked
    transfer encoding, and within the parser's limit, the chunked variant
    reports [receivedBytes = N] and [src/server.js] reports
    [size = N], where [N] is the number of bytes of the body, the sum over
    the client's writes; the answer is the same as for the body sent in one
    write.  The first variant does not read such a body. *)
Theorem C7_octet_stream_upload_size (r : Upload.request) (e : Upload.express)
    (JSON_parse : list Z -> option Upload.json) :
  Upload.contentType r = Upload.OctetStream ->
  Upload.hasBody r = true ->
  byte_length (Upload.payload r) <= Upload.mb 100 ->
  let N := byte_length (Upload.payload r) in
  let one := {| Upload.contentType := Upload.OctetStream;
                Upload.framed := Upload.framed r;
                Upload.writes := [Upload.payload r] |} in
  N = foldr (fun w acc => byte_length w + acc) 0 (Upload.writes r)
  /\ Upload.chunked_upload e r = Upload.Reported (Upload.Value (Upload.JNum N))
  /\ Upload.chunked_upload e one = Upload.chunked_upload e r
  /\ (N <= Upload.mb 50 ->
      Upload.server_upload JSON_parse e r
        = Upload.Reported (Upload.Value (Upload.JNum N))
      /\ Upload.server_upload JSON_parse e one = Upload.server_upload JSON_parse e r)
  /\ Upload.first_upload JSON_parse e r
     = match e with
       | Upload.Express4 => Upload.Reported (Upload.Value (Upload.JNum 2))
       | Upload.Express5 => Upload.Failed 500
       end.
Proof.
  intros Hct Hbody Hlim N one.
  assert (Hone : Upload.payload one = Upload.payload r)
    by (unfold Upload.payload; simpl; apply app_nil_r).
  assert (Hchunked : forall r', Upload.contentType r' = Upload.OctetStream ->
            Upload.framed r' = Upload.framed r ->
            Upload.payload r' = Upload.payload r ->
            Upload.chunked_upload e r' = Upload.Reported (Upload.Value (Upload.JNum N))).
  { intros r' Hct' Hfr Hp. unfold Upload.chunked_upload, Upload.express_raw.
    replace (Upload.hasBody r') with true
      by (unfold Upload.hasBody in *; now rewrite Hfr).
    rewrite Hct', Hp.
    replace (Upload.mb 100 <? byte_length (Upload.payload r)) with false
      by (symmetry; lia).
    reflexivity. }
  assert (Hserver : N <= Upload.mb 50 -> forall r',
            Upload.contentType r' = Upload.OctetStream ->
            Upload.framed r' = Upload.framed r ->
            Upload.payload r' = Upload.payload r ->
            Upload.server_upload JSON_parse e r'
              = Upload.Reported (Upload.Value (Upload.JNum N))).
  { intros H50 r' Hct' Hfr Hp.
    unfold Upload.server_upload, Upload.express_json, Upload.express_raw.
    replace (Upload.hasBody r') with true
      by (unfold Upload.hasBody in *; now rewrite Hfr).
    rewrite Hct', Hp.
    replace (Upload.mb 50 <? byte_length (Upload.payload r)) with false
      by (symmetry; lia).
    unfold Upload.server_handler. simpl. rewrite Hp. fold N.
    destruct (N =? 0) eqn:E; simpl; [|reflexivity].
    apply Z.eqb_eq in E. rewrite E. now destruct (Upload.framed r'). }
  split; [apply payload_length|].
  split; [now apply Hchunked|].
  split; [rewrite !Hchunked; auto|].
  split.
  - intros H50. rewrite !Hserver; auto.
  - unfold Upload.first_upload, Upload.express_json. rewrite Hbody, Hct.
    now destruct e.
Qed.

(** C7 amended, at a 5-byte body sent in two writes. *)
Lemma C7_witness :
  let r := {| Upload.contentType := Upload.OctetStream;
              Upload.framed := Upload.ContentLength;
              Upload.writes := [[1; 2; 3]; [4; 5]] |} in
  let e := Upload.Express4 in
  let JSON_parse := fun _ : list Z => @None Upload.json in
  let N := byte_length (Upload.payload r) in
  let one := {| Upload.contentType := Upload.OctetStream;
                Upload.framed := Upload.framed r;
                Upload.writes := [Upload.payload r] |} in
  N = foldr (fun w acc => byte_length w + acc) 0 (Upload.writes r)
  /\ Upload.chunked_upload e r = Upload.Reported (Upload.Value (Upload.JNum N))
  /\ Upload.chunked_upload e one = Upload.chunked_upload e r
  /\ (N <= Upload.mb 50 ->
      Upload.server_upload JSON_parse e r
        = Upload.Reported (Upload.Value (Upload.JNum N))
      /\ Upload.server_upload JSON_parse e one = Upload.server_upload JSON_parse e r)
  /\ Upload.first_upload JSON_parse e r
     = match e with
       | Upload.Express4 => Upload.Reported (Upload.Value (Upload.JNum 2))
       | Upload.Express5 => Upload.Failed 500
       end.
Proof.
  intros r e JSON_parse.
  apply (C7_octet_stream_upload_size r e JSON_parse).
  - reflexivity.
  - reflexivity.
  - vm_compute. discriminate.
Defined.

(** ** The rate limiter *)

Section RateLimiter.
Import RateLimit.
Variable cfg : config.
Variable clientKey : string.

Lemma admit_no_window now (registry : gmap string RateWindow) :
  no_window cfg now clientKey registry ->
  admission cfg now clientKey registry =
    (verdict cfg {| windowStartedAt := now; count := 1 |} now,
     <[clientKey := {| windowStartedAt := now; count := 1 |}]> registry).
Proof.
  unfold no_window, admission. destruct (registry !! clientKey) as [w|]; [|reflexivity].
  intros H. now replace (windowMs cfg <? now - windowStartedAt w) with true
    by (symmetry; lia).
Qed.

Lemma admit_in_window now started n (registry : gmap string RateWindow) :
  registry !! clientKey = Some {| windowStartedAt := started; count := n |} ->
  now - started <= windowMs cfg ->
  admission cfg now clientKey registry =
    (verdict cfg {| windowStartedAt := started; count := S n |} now,
     <[clientKey := {| windowStartedAt := started; count := S n |}]> registry).
Proof.
  intros Hl Hw. unfold admission. rewrite Hl. simpl.
  now replace (windowMs cfg <? now - started) with false by (symmetry; lia).
Qed.

(** Calls inside a running window count up from its counter. *)
Lemma admit_all_in_window started times :
  forall n (registry : gmap string RateWindow),
  registry !! clientKey = Some {| windowStartedAt := started; count := n |} ->
  Forall (fun t => t - started <= windowMs cfg) times ->
  length (admit_all cfg times clientKey registry).1 = length times
  /\ (admit_all cfg times clientKey registry).2 !! clientKey
     = Some {| windowStartedAt := started; count := (n + length times)%nat |}
  /\ forall i d, (admit_all cfg times clientKey registry).1 !! i = Some d ->
       exists t, times !! i = Some t
         /\ d = verdict cfg {| windowStartedAt := started;
                               count := (n + S i)%nat |} t.
Proof.
  induction times as [|t times IH]; intros n registry Hl Hf.
  - simpl. rewrite Nat.add_0_r. repeat split; auto. intros i d Hd. discriminate.
  - apply Forall_cons in Hf as [Ht Hf]. cbn [admit_all].
    rewrite (admit_in_window t started n registry Hl Ht).
    specialize (IH (S n) (<[clientKey := {| windowStartedAt := started;
                                            count := S n |}]> registry)
                  (lookup_insert_eq _ _ _) Hf).
    destruct (admit_all cfg times clientKey _) as [ds registry'] eqn:E.
    simpl in *. destruct IH as (Hlen & Hreg & Hds).
    split; [now rewrite Hlen|].
    split; [rewrite Hreg; do 2 f_equal; lia|].
    intros [|i] d Hd; simpl in Hd.
    + injection Hd as <-. exists t. split; [reflexivity|].
      now rewrite Nat.add_1_r.
    + destruct (Hds i d Hd) as (t' & Ht' & ->). exists t'.
      split; [exact Ht'|]. do 2 f_equal. lia.
Qed.

End RateLimiter.

(** C5: a client without a running window issues [max + 1] requests, at
    [t0] and then at the times [ts], all before the window started at [t0]
    is over, to a limiter that admits at least one request per window.  The
    first [max] are allowed; the last is refused with a positive
    [retryAfter]; a request made after the window has elapsed is allowed and
    leaves the client's counter at 1. *)
Theorem C5_rate_limit_window (cfg : RateLimit.config) (clientKey : string)
    (registry : gmap string RateLimit.RateWindow) (t0 : Z) (ts : list Z) (t' : Z) :
  (1 <= RateLimit.max cfg)%nat ->
  RateLimit.no_window cfg t0 clientKey registry ->
  length ts = RateLimit.max cfg ->
  Forall (fun t => t0 <= t < t0 + RateLimit.windowMs cfg) (t0 :: ts) ->
  RateLimit.windowMs cfg < t' - t0 ->
  let r := RateLimit.admit_all cfg (t0 :: ts) clientKey registry in
  let r' := RateLimit.admission cfg t' clientKey r.2 in
  length r.1 = S (RateLimit.max cfg)
  /\ (forall i d, (i < RateLimit.max cfg)%nat -> r.1 !! i = Some d ->
      RateLimit.allowed d = true)
  /\ (exists after,
        r.1 !! RateLimit.max cfg
          = Some {| RateLimit.allowed := false; RateLimit.retryAfter := Some after |}
        /\ 0 < after)
  /\ RateLimit.allowed r'.1 = true
  /\ RateLimit.count <$> r'.2 !! clientKey = Some 1%nat.
Proof.
  intros Hmax Hfresh Hlen Hin Hafter r r'.
  apply Forall_cons in Hin as [Ht0 Hts].
  assert (Hts' : Forall (fun t => t - t0 <= RateLimit.windowMs cfg) ts)
    by (eapply Forall_impl; [exact Hts | simpl; intros; lia]).
  subst r r'. cbn [RateLimit.admit_all].
  rewrite (admit_no_window cfg clientKey t0 registry Hfresh).
  pose proof (admit_all_in_window cfg clientKey t0 ts 1
                (<[clientKey := {| RateLimit.windowStartedAt := t0;
                                   RateLimit.count := 1 |}]> registry)
                (lookup_insert_eq _ _ _) Hts') as (Hl & Hreg & Hds).
  destruct (RateLimit.admit_all cfg ts clientKey _) as [ds registry'] eqn:E.
  cbn [fst snd length] in *.
  assert (Hverdict : forall i d,
            (RateLimit.verdict cfg {| RateLimit.windowStartedAt := t0;
                                      RateLimit.count := 1 |} t0 :: ds) !! i = Some d ->
            exists t, (t0 :: ts) !! i = Some t
              /\ d = RateLimit.verdict cfg {| RateLimit.windowStartedAt := t0;
                                              RateLimit.count := S i |} t).
  { intros [|i] d Hd; simpl in Hd.
    - injection Hd as <-. exists t0. auto.
    - destruct (Hds i d Hd) as (t & Ht & ->). exists t. auto. }
  split; [lia|]. split; [|split].
  - intros i d Hi Hd. destruct (Hverdict i d Hd) as (t & _ & ->).
    unfold RateLimit.verdict. simpl.
    now replace (RateLimit.max cfg <? S i)%nat with false by (symmetry; apply Nat.ltb_ge; lia).
  - destruct (lookup_lt_is_Some_2
                (RateLimit.verdict cfg {| RateLimit.windowStartedAt := t0;
                                          RateLimit.count := 1 |} t0 :: ds)
                (RateLimit.max cfg)) as [d Hd]; [simpl; lia|].
    destruct (Hverdict _ d Hd) as (t & Ht & ->).
    assert (t0 <= t < t0 + RateLimit.windowMs cfg) as Hrange.
    { apply list_elem_of_lookup_2 in Ht.
      apply elem_of_cons in Ht as [->|Ht]; [exact Ht0|].
      eapply Forall_forall in Hts; eauto. }
    exists (t0 + RateLimit.windowMs cfg - t). split; [|lia].
    rewrite Hd. unfold RateLimit.verdict. simpl.
    now replace (RateLimit.max cfg <? S (RateLimit.max cfg))%nat with true
      by (symmetry; apply Nat.ltb_lt; lia).
  - rewrite (admit_no_window cfg clientKey t' registry').
    + simpl. rewrite lookup_insert_eq. split; [|reflexivity].
      unfold RateLimit.verdict. simpl.
      destruct (RateLimit.max cfg); [lia | reflexivity].
    + unfold RateLimit.no_window. rewrite Hreg. simpl. lia.
Qed.

(** C5, for the limiter of the spec's scenario (window 60000 ms, at most 3
    requests) and the client A with requests at 0, 10, 20 and 30 seconds,
    then one at 61 seconds. *)
Lemma C5_witness :
  let cfg := {| RateLimit.windowMs := 60000; RateLimit.max := 3;
                RateLimit.skipSuccessfulRequests := false |} in
  let r := RateLimit.admit_all cfg [0; 10000; 20000; 30000] "A" ∅ in
  let r' := RateLimit.admission cfg 61000 "A" r.2 in
  length r.1 = 4%nat
  /\ (forall i d, (i < 3)%nat -> r.1 !! i = Some d -> RateLimit.allowed d = true)
  /\ (exists after,
        r.1 !! 3%nat
          = Some {| RateLimit.allowed := false; RateLimit.retryAfter := Some after |}
        /\ 0 < after)
  /\ RateLimit.allowed r'.1 = true
  /\ RateLimit.count <$> r'.2 !! "A" = Some 1%nat.
Proof.
  intros cfg.
  apply (C5_rate_limit_window cfg "A" ∅ 0 [10000; 20000; 30000] 61000).
  - simpl. lia.
  - exact I.
  - reflexivity.
  - repeat constructor; simpl; lia.
  - simpl. lia.
Defined.

(** * Further results *)

(** ** The generator *)

(** The generator returns exactly on the sizes that are non-negative
    multiples of four; on every other size it throws. *)
Theorem generateRandomBuffer_succeeds_iff (rng : nat -> Z) (n : Z) (k : nat) :
  (exists buf k', generateRandomBuffer rng n k = Ok (buf, k'))
  <-> 0 <= n /\ n mod 4 = 0.
Proof.
  split.
  - intros (buf & k' & H). apply generateRandomBuffer_length in H. tauto.
  - intros [Hn Hm].
    destruct (generateRandomBuffer_ok rng n k Hn Hm) as (buf & k' & H & _).
    eauto.
Qed.

Lemma le32_range v : Forall (fun b => 0 <= b < 256) (le32 v).
Proof.
  unfold le32. repeat constructor;
    try (apply Z.land_nonneg; right; lia);
    match goal with
    | |- Z.land ?a 255 < 256 =>
        change 255 with (Z.ones 8); rewrite Z.land_ones by lia;
        apply Z.mod_pos_bound; lia
    end.
Qed.

Lemma le32_value_le32 v : 0 <= v < 4294967296 -> le32_value (le32 v) = v.
Proof.
  intros Hv. unfold le32, le32_value.
  change 255 with (Z.ones 8). rewrite !Z.land_ones, !Z.shiftr_div_pow2 by lia.
  change (2 ^ 8) with 256. change (2 ^ 16) with 65536.
  change (2 ^ 24) with 16777216.
  replace (v / 65536) with (v / 256 / 256)
    by (rewrite Z.div_div by lia; reflexivity).
  replace (v / 16777216) with (v / 256 / 256 / 256)
    by (rewrite !Z.div_div by lia; reflexivity).
  pose proof (Z.div_mod v 256 ltac:(lia)).
  pose proof (Z.div_mod (v / 256) 256 ltac:(lia)).
  pose proof (Z.div_mod (v / 256 / 256) 256 ltac:(lia)).
  assert (v / 256 / 256 / 256 < 256).
  { repeat (apply Z.div_lt_upper_bound; [lia|]). lia. }
  assert (0 <= v / 256 / 256 / 256) by (repeat apply Z.div_pos; lia).
  rewrite (Z.mod_small (v / 256 / 256 / 256)) by lia.
  lia.
Qed.

(** The loop overwrites the zeros of the fresh buffer word by word. *)
Lemma fill_words_content rng q : forall fuel pre k,
  (q <= fuel)%nat ->
  fill_words rng (Z.of_nat (length pre + 4 * q)) fuel (Z.of_nat (length pre))
    (pre ++ replicate (4 * q) 0) k
  = Ok (pre ++ flat_map le32 (drawn_words rng k q), (k + q)%nat).
Proof.
  induction q as [|q IH]; intros fuel pre k Hfuel.
  - simpl. rewrite !Nat.add_0_r, !app_nil_r.
    destruct fuel; simpl; [reflexivity|].
    now rewrite Z.ltb_irrefl.
  - destruct fuel as [|fuel]; [lia|]. cbn [fill_words].
    rewrite (proj2 (Z.ltb_lt _ _)) by lia.
    pose proof (random_word_range rng k) as Hr.
    unfold writeUInt32LE.
    rewrite (proj2 (Z.ltb_ge (random_word rng k) 0)) by lia.
    rewrite (proj2 (Z.ltb_ge 4294967295 (random_word rng k))) by lia.
    rewrite (proj2 (Z.ltb_ge (Z.of_nat (length pre)) 0)) by lia.
    rewrite (proj2 (Z.ltb_ge (byte_length _) _))
      by (unfold byte_length; rewrite length_app, length_replicate; lia).
    cbn [orb]. rewrite Nat2Z.id.
    rewrite take_app_length, drop_app_add, drop_replicate.
    replace (4 * S q - 4)%nat with (4 * q)%nat by lia.
    specialize (IH fuel (pre ++ le32 (random_word rng k)) (S k) ltac:(lia)).
    rewrite length_app in IH. change (length (le32 (random_word rng k))) with 4%nat in IH.
    replace (Z.of_nat (length pre) + 4) with (Z.of_nat (length pre + 4)) by lia.
    replace (length pre + 4 * S q)%nat with (length pre + 4 + 4 * q)%nat by lia.
    rewrite <- app_assoc in IH. rewrite IH.
    unfold drawn_words. simpl. rewrite <- !app_assoc.
    do 2 f_equal. lia.
Qed.

(** A buffer the generator returns holds the words drawn from the random
    source, one after the other in little-endian byte order, four bytes per
    draw; every element is a byte. *)
Theorem generateRandomBuffer_content (rng : nat -> Z) (n : Z) (k k' : nat)
    (buf : list Z) :
  generateRandomBuffer rng n k = Ok (buf, k') ->
  k' = (k + Z.to_nat (n / 4))%nat
  /\ buf = flat_map le32 (drawn_words rng k (Z.to_nat (n / 4)))
  /\ Forall (fun b => 0 <= b < 256) buf
  /\ Forall (fun w => le32_value (le32 w) = w) (drawn_words rng k (Z.to_nat (n / 4))).
Proof.
  intros H. pose proof H as H0.
  apply generateRandomBuffer_length in H0 as (_ & Hn & Hm).
  destruct (multiple_of_4 n Hm) as [a ->].
  replace (4 * a / 4) with a by (rewrite Z.mul_comm, Z.div_mul; lia).
  unfold generateRandomBuffer, Buffer_alloc in H.
  replace (4 * a <? 0) with false in H by (symmetry; lia).
  assert (Hle : (Z.to_nat a <= iterations (4 * a))%nat).
  { unfold iterations. apply Z2Nat.inj_le; try lia.
    - apply Z.div_pos; lia.
    - apply Z.div_le_lower_bound; lia. }
  pose proof (fill_words_content rng (Z.to_nat a) (iterations (4 * a)) [] k Hle) as Hf.
  cbn [app length] in Hf. rewrite Nat.add_0_l in Hf.
  change (Z.of_nat 0) with 0 in Hf.
  replace (Z.of_nat (4 * Z.to_nat a)) with (4 * a) in Hf by lia.
  replace (4 * Z.to_nat a)%nat with (Z.to_nat (4 * a)) in Hf by lia.
  rewrite Hf in H.
  injection H as <- <-.
  split; [reflexivity|]. split; [reflexivity|]. split.
  - apply List.Forall_flat_map. apply Forall_forall. intros w _. apply le32_range.
  - unfold drawn_words. apply List.Forall_map. apply Forall_forall. intros j _.
    apply le32_value_le32. pose proof (random_word_range rng j). lia.
Qed.

(** The generator at 8 bytes with the source 1000, 1001, ... *)
Lemma generateRandomBuffer_content_witness :
  let rng := fun j : nat => 1000 + Z.of_nat j in
  let buf := [232; 3; 0; 0; 233; 3; 0; 0] in
  2%nat = (0 + Z.to_nat (8 / 4))%nat
  /\ buf = flat_map le32 (drawn_words rng 0 (Z.to_nat (8 / 4)))
  /\ Forall (fun b => 0 <= b < 256) buf
  /\ Forall (fun w => le32_value (le32 w) = w) (drawn_words rng 0 (Z.to_nat (8 / 4))).
Proof.
  intros rng buf.
  apply (generateRandomBuffer_content rng 8 0 2 buf).
  reflexivity.
Defined.

(** ** The decisions of the chunked [GET /download] *)

(** The chunked handler answers with the minimum message exactly when the
    size parameter parses to a negative number, with the maximum message
    exactly when it parses to a number above 100, and streams otherwise:
    a size of 0, like a missing or non-numeric one, is replaced by 10. *)
Theorem download_decisions (q : Chunked.download_query) :
  (Chunked.download q = Chunked.Rejected 400 "Minimum download size is 1MB"
   <-> exists n, parseInt_param (Chunked.q_size q) = Some n /\ n < 0)
  /\ (Chunked.download q = Chunked.Rejected 400 "Maximum download size is 100MB"
      <-> exists n, parseInt_param (Chunked.q_size q) = Some n /\ 100 < n)
  /\ ((exists cl s, Chunked.download q = Chunked.Streaming cl s)
      <-> 1 <= Chunked.requested_size q <= 100).
Proof.
  unfold Chunked.download, Chunked.requested_size, or_default.
  destruct (parseInt_param (Chunked.q_size q)) as [n|];
    [destruct (n =? 0) eqn:E0;
       [apply Z.eqb_eq in E0; subst n; simpl
       |apply Z.eqb_neq in E0;
        destruct (n >? 100) eqn:E1; [|destruct (n <? 1) eqn:E2]]
    |simpl];
    repeat match goal with
      | |- _ /\ _ => split
      | |- _ <-> _ => split
      | |- _ -> _ => intro
      | Hx : exists _, _ |- _ => destruct Hx
      | Hx : _ /\ _ |- _ => destruct Hx
      | Hx : Some _ = Some _ |- _ => injection Hx as Hx; subst
      end;
    try discriminate; try lia;
    try (eexists; split; [reflexivity | lia]);
    try (do 2 eexists; reflexivity).
Qed.

(** ** The [sendChunk] loop whatever the sink does *)

Section ChunkedTotals.
Import Chunked.
Variable s : session.
Variable rng : nat -> Z.
Hypothesis chunk_positive : 0 < chunkSize s.
Hypothesis chunk_finite : infinite (chunkSize s) = false.
Hypothesis buffer_positive : 0 < bufferSize s.

Lemma start_within_total : within_total s (start s rng).
Proof.
  pose proof (start_layout s rng chunk_positive chunk_finite buffer_positive) as Hl.
  split; [exact Hl|].
  pose proof (chunkCount_bounds s chunk_positive chunk_finite) as Hb.
  unfold start, sendChunk, bytes_written in *.
  destruct (0 >=? chunkCount s); [simpl; lia|].
  simpl (sentBytes init).
  destruct (generateRandomBuffer _ _ _) as [[buf k]|e] eqn:G; simpl; [|lia].
  apply generateRandomBuffer_length in G as (Hlen & _ & _).
  unfold total_length. simpl in *. unfold byte_length in *. lia.
Qed.

Lemma step_within_total ev st st' :
  within_total s st -> step s rng ev st = Some st' ->
  within_total s st' /\ remaining_events s st' < remaining_events s st.
Proof.
  intros (Hl & Hsent & Htot) Hs.
  pose proof (step_layout s rng chunk_positive chunk_finite buffer_positive
                _ _ _ Hl Hs) as Hl'.
  cut ((0 <= sentBytes st' <= bytes_written st'
        /\ bytes_written st' <= bufferSize s)
       /\ remaining_events s st' < remaining_events s st).
  { intros [H1 H2]. split; [split; [exact Hl' | exact H1] | exact H2]. }
  clear Hl'.
  pose proof (chunkCount_bounds s chunk_positive chunk_finite) as Hb.
  destruct Hl as (_ & _ & Hshape).
  unfold remaining_events, bytes_written in *.
  destruct ev as [err|]; simpl in Hs.
  - destruct (inflight st) as [|w rest] eqn:Ei; [discriminate|].
    injection Hs as <-.
    destruct rest; [|destruct Hshape].
    destruct (immediates st) eqn:Em; [|destruct Hshape].
    destruct Hshape as (He & Ht & Hr & Hsb & Hcur & Htl & Hlen).
    unfold write_callback in *. destruct err; simpl in *.
    { rewrite ?Em. simpl. repeat split; auto; lia. }
    destruct (w_chunkIndex w <? chunkCount s - 1) eqn:Elast; simpl in *.
    + rewrite ?Em. simpl. repeat split; auto; lia.
    + rewrite ?Em. simpl. repeat split; auto; lia.
  - destruct (immediates st) as [|i rest] eqn:Em; [discriminate|].
    injection Hs as <-.
    destruct (inflight st) eqn:Ei.
    2:{ destruct l; destruct Hshape. }
    destruct rest; [|destruct Hshape].
    destruct Hshape as (He & Ht & Hr & Hsb & Htl & Hlen).
    unfold sendChunk in *. simpl in *.
    replace (i >=? chunkCount s) with false in * by (symmetry; lia).
    destruct (generateRandomBuffer _ _ _) as [[buf k]|e] eqn:G; simpl in *.
    + apply generateRandomBuffer_length in G as (Hbl & _ & _).
      rewrite total_length_app. unfold total_length at 2 4. simpl.
      rewrite ?Ei. simpl. unfold byte_length in *.
      repeat split; auto; try lia; nia.
    + rewrite ?Ei. simpl. repeat split; auto; lia.
Qed.

Lemma exec_within_total evs : forall st st',
  within_total s st -> exec s rng evs st = Some st' ->
  within_total s st'
  /\ remaining_events s st' + Z.of_nat (length evs) <= remaining_events s st.
Proof.
  induction evs as [|ev evs IH]; intros st st' Hw He; simpl in He.
  - injection He as <-. split; [exact Hw | simpl; lia].
  - destruct (step s rng ev st) as [st1|] eqn:Hs; [|discriminate].
    destruct (step_within_total _ _ _ Hw Hs) as (Hw1 & Hlt).
    destruct (IH _ _ Hw1 He) as (Hw' & Hle).
    split; [exact Hw'|]. simpl length. lia.
Qed.

Lemma remaining_events_nonneg st : within_total s st -> 0 <= remaining_events s st.
Proof.
  intros ((_ & _ & Hshape) & _). unfold remaining_events.
  destruct (inflight st) as [|w [|]]; destruct (immediates st) as [|i [|]];
    first [lia | destruct Hshape as (_ & _ & Hr & _); lia | destruct Hshape].
Qed.

Lemma remaining_events_start : remaining_events s (start s rng) <= 2 * chunkCount s - 1.
Proof.
  pose proof (chunkCount_positive s chunk_positive chunk_finite buffer_positive).
  unfold start, sendChunk, remaining_events.
  destruct (0 >=? chunkCount s); [simpl; lia|].
  destruct (generateRandomBuffer _ _ _) as [[buf k]|e]; simpl; lia.
Qed.

End ChunkedTotals.

Lemma exec_idle_nil s rng evs st st' :
  Chunked.idle st -> Chunked.exec s rng evs st = Some st' -> evs = [].
Proof.
  intros [Hi Hm] He. destruct evs as [|[err|] evs]; simpl in He.
  - reflexivity.
  - rewrite Hi in He. discriminate.
  - rewrite Hm in He. discriminate.
Qed.

Lemma chunk_size_cases n :
  (0 < n /\ infinite n = false) \/ (n <= 0 \/ infinite n = true).
Proof. destruct (Z_lt_le_dec 0 n); destruct (infinite n); auto. Qed.

(** In every state the loop of an accepted download reaches, whatever the
    sink answers, the bytes acknowledged are at most the bytes written, and
    the bytes written are at most the declared [Content-Length]. *)
Theorem download_never_exceeds_content_length (q : Chunked.download_query)
    (cl : Z) (s : Chunked.session) (rng : nat -> Z)
    (evs : list Chunked.event) (st : Chunked.state) :
  Chunked.download q = Chunked.Streaming cl s ->
  Chunked.exec s rng evs (Chunked.start s rng) = Some st ->
  0 <= Chunked.sentBytes st <= Chunked.bytes_written st
  /\ Chunked.bytes_written st <= cl.
Proof.
  intros Hd He.
  destruct (download_streaming q cl s Hd) as (Hsize & Hcl & HB & _ & _).
  assert (0 < Chunked.bufferSize s) as HBpos by lia.
  destruct (chunk_size_cases (Chunked.chunkSize s)) as [[Hc Hfin]|Hc].
  - destruct (exec_within_total s rng Hc Hfin HBpos evs _ _
                (start_within_total s rng Hc Hfin HBpos) He) as ((_ & H1 & H2) & _).
    split; [exact H1 | lia].
  - rewrite start_without_chunks in He by (auto; lia).
    apply exec_idle in He; [|split; reflexivity]. subst st.
    unfold Chunked.bytes_written, Chunked.total_length. simpl. lia.
Qed.

(** The bound at [GET /download?size=1] in the state in which the handler
    returns. *)
Lemma download_never_exceeds_content_length_witness :
  let s := {| Chunked.bufferSize := 1048576; Chunked.chunkSize := 1048576 |} in
  let st := Chunked.start s (fun j => Z.of_nat j) in
  0 <= Chunked.sentBytes st <= Chunked.bytes_written st
  /\ Chunked.bytes_written st <= 1048576.
Proof.
  intros s st.
  apply (download_never_exceeds_content_length
           {| Chunked.q_size := Some "1"; Chunked.q_chunk := None |}
           1048576 s (fun j => Z.of_nat j) [] st).
  - reflexivity.
  - reflexivity.
Defined.

(** The loop of an accepted download terminates whatever the sink and the
    generator do: no sequence of write completions and immediates is longer
    than two events per chunk, less one. *)
Theorem sendChunk_terminates_within (q : Chunked.download_query)
    (cl : Z) (s : Chunked.session) (rng : nat -> Z)
    (evs : list Chunked.event) (st : Chunked.state) :
  Chunked.download q = Chunked.Streaming cl s ->
  Chunked.exec s rng evs (Chunked.start s rng) = Some st ->
  Z.of_nat (length evs) <= Z.max 0 (2 * Chunked.chunkCount s - 1).
Proof.
  intros Hd He.
  destruct (download_streaming q cl s Hd) as (Hsize & Hcl & HB & _ & _).
  assert (0 < Chunked.bufferSize s) as HBpos by lia.
  destruct (chunk_size_cases (Chunked.chunkSize s)) as [[Hc Hfin]|Hc].
  - destruct (exec_within_total s rng Hc Hfin HBpos evs _ _
                (start_within_total s rng Hc Hfin HBpos) He) as (Hw & Hle).
    pose proof (remaining_events_nonneg s st Hw).
    pose proof (remaining_events_start s rng Hc Hfin HBpos).
    lia.
  - rewrite start_without_chunks in He by (auto; lia).
    apply exec_idle_nil in He; [|split; reflexivity]. subst evs. simpl. lia.
Qed.

(** [GET /download?size=1&chunk=4]: the first write is acknowledged, the
    queued [sendChunk(1)] runs and its write is acknowledged too.  These three
    events leave two chunks written, eight bytes acknowledged and
    [sendChunk(2)] queued; the bound for this session is 524287 events. *)
Lemma sendChunk_terminates_within_witness :
  let s := {| Chunked.bufferSize := 1048576; Chunked.chunkSize := 4 |} in
  let evs := [Chunked.WriteDone false; Chunked.Immediate; Chunked.WriteDone false] in
  Z.of_nat (length evs) <= Z.max 0 (2 * Chunked.chunkCount s - 1).
Proof.
  intros s evs.
  apply (sendChunk_terminates_within
           {| Chunked.q_size := Some "1"; Chunked.q_chunk := Some "4" |}
           1048576 s (fun j => 1000 + Z.of_nat j) evs
           (Chunked.State 8 [(0, [232; 3; 0; 0]); (4, [233; 3; 0; 0])] [] [2]
              false false 2)).
  - reflexivity.
  - vm_compute. reflexivity.
Defined.

(** ** The [sendChunk] loop when a write fails *)

Section ChunkedAbort.
Import Chunked.
Variable s : session.
Variable rng : nat -> Z.
Variable errs : Z -> bool.
Variable j : Z.
Hypothesis chunk_positive : 0 < chunkSize s.
Hypothesis chunk_finite : infinite (chunkSize s) = false.
Hypothesis buffer_positive : 0 < bufferSize s.
Hypothesis buffer_aligned : bufferSize s mod 4 = 0.
Hypothesis chunk_aligned : chunkSize s mod 4 = 0 \/ bufferSize s <= chunkSize s.
Hypothesis first_error : 0 <= j < chunkCount s.
Hypothesis error_at : errs j = true.
Hypothesis none_before : forall i, 0 <= i < j -> errs i = false.

Lemma run_until_error k : forall st w fuel,
  layout s st -> inflight st = [w] ->
  0 <= w_chunkIndex w ->
  Z.of_nat k = j - w_chunkIndex w ->
  (2 * k + 1 <= fuel)%nat ->
  ended (run s rng errs fuel st) = false
  /\ idle (run s rng errs fuel st)
  /\ Z.of_nat (length (written (run s rng errs fuel st))) = j + 1
  /\ sentBytes (run s rng errs fuel st) = j * chunkSize s
  /\ bytes_written (run s rng errs fuel st)
     = Z.min ((j + 1) * chunkSize s) (bufferSize s).
Proof.
  induction k as [|k IH]; intros st w fuel Hl Hi Hw0 Hk Hfuel.
  - destruct fuel as [|fuel]; [lia|].
    rewrite (run_write _ _ _ _ _ _ _ Hi).
    assert (w_chunkIndex w = j) as Hj by lia. rewrite Hj, error_at.
    unfold write_callback.
    destruct Hl as (_ & _ & Hshape). rewrite Hi in Hshape.
    destruct (immediates st) eqn:Em; [|destruct Hshape].
    destruct Hshape as (He & Ht & Hr & Hsb & Hcur & Htl & Hlen).
    rewrite run_idle by (split; simpl; auto).
    unfold bytes_written. simpl.
    split; [exact He|]. split; [split; simpl; auto|].
    split; [lia|]. split; [lia|].
    rewrite Htl, Hcur, Hsb, Hj. lia.
  - destruct fuel as [|[|fuel]]; try lia.
    rewrite (run_write _ _ _ _ _ _ _ Hi).
    rewrite (none_before (w_chunkIndex w)) by lia.
    assert (Hs : step s rng (WriteDone false) st
                 = Some (write_callback s w false
                           (State (sentBytes st) (written st) [] (immediates st)
                              (ended st) (thrown st) (draws st))))
      by (simpl; now rewrite Hi).
    pose proof (step_layout s rng chunk_positive chunk_finite buffer_positive
                  _ _ _ Hl Hs) as Hl1.
    clear Hs. unfold write_callback in *.
    replace (w_chunkIndex w <? chunkCount s - 1) with true in * by (symmetry; lia).
    destruct Hl as (_ & _ & Hshape). rewrite Hi in Hshape.
    destruct (immediates st) eqn:Em; [|destruct Hshape].
    simpl app in *.
    set (st1 := State (sentBytes st + w_currentChunkSize w) (written st) []
                  [w_chunkIndex w + 1] (ended st) (thrown st) (draws st)) in *.
    rewrite (run_immediate _ _ _ _ st1 (w_chunkIndex w + 1) []) by reflexivity.
    assert (Hs2 : step s rng Immediate st1
                  = Some (sendChunk s rng (w_chunkIndex w + 1)
                            (State (sentBytes st1) (written st1) (inflight st1) []
                               (ended st1) (thrown st1) (draws st1))))
      by reflexivity.
    pose proof (step_layout s rng chunk_positive chunk_finite buffer_positive
                  _ _ _ Hl1 Hs2) as Hl2.
    destruct Hl1 as (_ & _ & Hshape1). simpl in Hshape1.
    destruct Hshape1 as (_ & _ & Hr1 & Hsb1 & _).
    destruct (sendChunk_writes s rng chunk_positive chunk_finite buffer_positive
                buffer_aligned chunk_aligned (w_chunkIndex w + 1)
                (State (sentBytes st1) (written st1) (inflight st1) []
                   (ended st1) (thrown st1) (draws st1))
                ltac:(lia) Hsb1 eq_refl)
      as (w2 & Hw2 & Hidx).
    apply (IH _ w2 fuel Hl2 Hw2); lia.
Qed.

Lemma run_stops_at_error fuel :
  (Z.to_nat (2 * j + 1) <= fuel)%nat ->
  ended (run s rng errs fuel (start s rng)) = false
  /\ idle (run s rng errs fuel (start s rng))
  /\ Z.of_nat (length (written (run s rng errs fuel (start s rng)))) = j + 1
  /\ sentBytes (run s rng errs fuel (start s rng)) = j * chunkSize s
  /\ bytes_written (run s rng errs fuel (start s rng))
     = Z.min ((j + 1) * chunkSize s) (bufferSize s).
Proof.
  intros Hfuel.
  destruct (sendChunk_writes s rng chunk_positive chunk_finite buffer_positive
              buffer_aligned chunk_aligned 0 init ltac:(lia) eq_refl eq_refl)
    as (w & Hw & Hidx).
  fold (start s rng) in Hw.
  apply (run_until_error (Z.to_nat j) (start s rng) w fuel); auto; try lia.
  apply start_layout; assumption.
Qed.

End ChunkedAbort.

(** When the sink reports an error for the write of chunk [j], and for none
    before, the loop of an accepted download stops there: [j + 1] chunks have
    been written, [j] of them acknowledged, the response is never ended, and
    nothing is left pending. *)
Theorem sendChunk_stops_on_write_error (q : Chunked.download_query) (cl : Z)
    (s : Chunked.session) (rng : nat -> Z) (errs : Z -> bool) (j : Z)
    (fuel : nat) :
  Chunked.download q = Chunked.Streaming cl s ->
  positive_integer (Chunked.chunkSize s) ->
  Chunked.chunkSize s mod 4 = 0 \/ Chunked.bufferSize s <= Chunked.chunkSize s ->
  0 <= j < Chunked.chunkCount s ->
  errs j = true ->
  (forall i, 0 <= i < j -> errs i = false) ->
  (Z.to_nat (2 * j + 1) <= fuel)%nat ->
  Chunked.ended (Chunked.run s rng errs fuel (Chunked.start s rng)) = false
  /\ Chunked.idle (Chunked.run s rng errs fuel (Chunked.start s rng))
  /\ Z.of_nat (length (Chunked.written
                         (Chunked.run s rng errs fuel (Chunked.start s rng))))
     = j + 1
  /\ Chunked.sentBytes (Chunked.run s rng errs fuel (Chunked.start s rng))
     = j * Chunked.chunkSize s
  /\ Chunked.bytes_written (Chunked.run s rng errs fuel (Chunked.start s rng))
     = Z.min ((j + 1) * Chunked.chunkSize s) (Chunked.bufferSize s).
Proof.
  intros Hd [Hc Hfin] Hal Hj He Hn Hfuel.
  destruct (download_streaming q cl s Hd) as (Hsize & Hcl & HB & _ & _).
  apply run_stops_at_error; auto; try lia.
  rewrite HB, Hcl. change 1048576 with (262144 * 4).
  rewrite Z.mul_assoc. apply Z.mod_mul. lia.
Qed.

(** [GET /download?size=2] with the second write failing. *)
Lemma sendChunk_stops_on_write_error_witness :
  let s := {| Chunked.bufferSize := 2097152; Chunked.chunkSize := 1048576 |} in
  let rng := fun i : nat => Z.of_nat i in
  let errs := fun i : Z => 1 <=? i in
  Chunked.ended (Chunked.run s rng errs 3 (Chunked.start s rng)) = false
  /\ Chunked.idle (Chunked.run s rng errs 3 (Chunked.start s rng))
  /\ Z.of_nat (length (Chunked.written
                         (Chunked.run s rng errs 3 (Chunked.start s rng))))
     = 1 + 1
  /\ Chunked.sentBytes (Chunked.run s rng errs 3 (Chunked.start s rng))
     = 1 * Chunked.chunkSize s
  /\ Chunked.bytes_written (Chunked.run s rng errs 3 (Chunked.start s rng))
     = Z.min ((1 + 1) * Chunked.chunkSize s) (Chunked.bufferSize s).
Proof.
  intros s rng errs.
  apply (sendChunk_stops_on_write_error
           {| Chunked.q_size := Some "2"; Chunked.q_chunk := None |}
           2097152 s rng errs 1 3).
  - reflexivity.
  - split; reflexivity.
  - left. reflexivity.
  - split; [lia | reflexivity].
  - reflexivity.
  - intros i Hi. assert (i = 0) as -> by lia. reflexivity.
  - simpl. lia.
Defined.

(** ** Downloads of a whole number of megabytes with the default chunk *)

Lemma parseInt_small_numeral n : 1 <= n <= 100 -> parseInt (pretty n) = Some n.
Proof.
  intros Hn.
  assert (Hall : forallb (fun k => match parseInt (pretty (Z.of_nat k)) with
                                   | Some m => m =? Z.of_nat k
                                   | None => false
                                   end) (seq 1 100) = true)
    by (vm_compute; reflexivity).
  rewrite forallb_forall in Hall.
  specialize (Hall (Z.to_nat n)). rewrite Z2Nat.id in Hall by lia.
  destruct (parseInt (pretty n)) as [m|].
  - f_equal. apply Z.eqb_eq. apply Hall. apply in_seq. lia.
  - discriminate Hall. apply in_seq. lia.
Qed.

(** Contiguous writes of positive length in a buffer that is a whole number
    of chunks are all full chunks. *)
Lemma contiguous_full_chunks s n ws : forall m,
  0 < Chunked.chunkSize s ->
  Chunked.bufferSize s = n * Chunked.chunkSize s ->
  Chunked.contiguous s (m * Chunked.chunkSize s) ws ->
  Forall (fun w => 0 < byte_length (snd w)) ws ->
  Forall (fun w => byte_length (snd w) = Chunked.chunkSize s) ws.
Proof.
  induction ws as [|[a b] ws IH]; intros m Hc HB Hcont Hpos; [constructor|].
  simpl in Hcont. destruct Hcont as (-> & Hl & Hcont).
  apply Forall_cons in Hpos as [Hb Hpos]. simpl in Hb.
  assert (byte_length b = Chunked.chunkSize s) as Hfull.
  { rewrite HB in Hl.
    replace (n * Chunked.chunkSize s - m * Chunked.chunkSize s)
      with ((n - m) * Chunked.chunkSize s) in Hl by lia.
    destruct (Z.min_spec (Chunked.chunkSize s) ((n - m) * Chunked.chunkSize s))
      as [[_ E]|[Hle E]]; rewrite E in Hl; [exact Hl|].
    assert (0 < n - m) by nia. assert (n - m = 1) as E1 by nia.
    rewrite E1 in Hl. lia. }
  constructor; [exact Hfull|].
  apply (IH (m + 1)); auto.
  rewrite Hfull in Hcont. now replace ((m + 1) * Chunked.chunkSize s)
    with (m * Chunked.chunkSize s + Chunked.chunkSize s) by lia.
Qed.

Lemma run_complete_layout s rng fuel :
  0 < Chunked.chunkSize s -> infinite (Chunked.chunkSize s) = false ->
  0 < Chunked.bufferSize s -> Chunked.bufferSize s mod 4 = 0 ->
  Chunked.chunkSize s mod 4 = 0 \/ Chunked.bufferSize s <= Chunked.chunkSize s ->
  (Z.to_nat (2 * Chunked.chunkCount s) <= fuel)%nat ->
  Chunked.layout s (Chunked.run s rng (fun _ => false) fuel (Chunked.start s rng)).
Proof.
  intros Hc Hfin HB Hal Hca Hfuel.
  pose proof (chunkCount_positive s Hc Hfin HB) as Hn.
  destruct (sendChunk_writes s rng Hc Hfin HB Hal Hca 0 Chunked.init
              ltac:(lia) eq_refl eq_refl) as (w & Hw & Hidx).
  fold (Chunked.start s rng) in Hw.
  apply (run_from_write s rng Hc Hfin HB Hal Hca
           (Z.to_nat (Chunked.chunkCount s - 1)) (Chunked.start s rng) w fuel);
    auto; try lia.
  apply start_layout; assumption.
Qed.

(** [GET /download?size=n] with the decimal numeral of any [n] from 1 to 100
    and no chunk parameter: the handler declares [n * 1048576] bytes, and with
    a sink that accepts every write the loop makes exactly [n] writes of
    1048576 bytes each and ends the response. *)
Theorem download_megabytes_delivered (n : Z) (rng : nat -> Z) (fuel : nat) :
  1 <= n <= 100 ->
  (Z.to_nat (2 * n) <= fuel)%nat ->
  let q := {| Chunked.q_size := Some (pretty n); Chunked.q_chunk := None |} in
  let s := {| Chunked.bufferSize := n * 1048576; Chunked.chunkSize := 1048576 |} in
  let st := Chunked.run s rng (fun _ => false) fuel (Chunked.start s rng) in
  Chunked.download q = Chunked.Streaming (n * 1048576) s
  /\ Chunked.ended st = true
  /\ Z.of_nat (length (Chunked.written st)) = n
  /\ Forall (fun w => byte_length (snd w) = 1048576) (Chunked.written st)
  /\ Chunked.bytes_written st = n * 1048576.
Proof.
  intros Hn Hfuel q s st.
  assert (Hsize : Chunked.requested_size q = n).
  { unfold Chunked.requested_size, q. simpl.
    rewrite (parseInt_small_numeral n Hn). unfold or_default.
    now replace (n =? 0) with false by (symmetry; lia). }
  assert (Hd : Chunked.download q = Chunked.Streaming (n * 1048576) s).
  { rewrite (download_accepts q) by lia. now rewrite Hsize. }
  assert (Hc : 0 < Chunked.chunkSize s) by reflexivity.
  assert (Hfin : infinite (Chunked.chunkSize s) = false) by reflexivity.
  assert (HB : 0 < Chunked.bufferSize s) by (simpl; lia).
  assert (Hca : Chunked.chunkSize s mod 4 = 0
                \/ Chunked.bufferSize s <= Chunked.chunkSize s)
    by (left; reflexivity).
  assert (Hcount : Chunked.chunkCount s = n).
  { pose proof (chunkCount_bounds s Hc Hfin) as Hb. simpl in Hb. lia. }
  assert (Hfu : (Z.to_nat (2 * Chunked.chunkCount s) <= fuel)%nat)
    by (rewrite Hcount; exact Hfuel).
  destruct (download_delivers_exactly q _ s rng fuel st Hd (conj Hc Hfin) Hca Hfu eq_refl)
    as (He & _ & _ & Hw & _ & Hlen).
  assert (Hal : Chunked.bufferSize s mod 4 = 0).
  { simpl. change 1048576 with (262144 * 4). rewrite Z.mul_assoc.
    apply Z.mod_mul. lia. }
  pose proof (run_complete_layout s rng fuel Hc Hfin HB Hal Hca Hfu)
    as (Hcont & Hpos & _).
  split; [exact Hd|]. split; [exact He|]. split; [lia|].
  split; [|rewrite Hw, Hsize; reflexivity].
  apply (contiguous_full_chunks s n _ 0); auto.
Qed.

(** [GET /download?size=3]. *)
Lemma download_megabytes_delivered_witness :
  let rng := fun i : nat => Z.of_nat i in
  let q := {| Chunked.q_size := Some (pretty 3); Chunked.q_chunk := None |} in
  let s := {| Chunked.bufferSize := 3 * 1048576; Chunked.chunkSize := 1048576 |} in
  let st := Chunked.run s rng (fun _ => false) 6 (Chunked.start s rng) in
  Chunked.download q = Chunked.Streaming (3 * 1048576) s
  /\ Chunked.ended st = true
  /\ Z.of_nat (length (Chunked.written st)) = 3
  /\ Forall (fun w => byte_length (snd w) = 1048576) (Chunked.written st)
  /\ Chunked.bytes_written st = 3 * 1048576.
Proof.
  intros rng.
  apply (download_megabytes_delivered 3 rng 6).
  - lia.
  - simpl. lia.
Defined.

(** ** The downloads of [src/server.js] and of the configurable variant *)

Lemma Forall_replicate_const {A} (P : A -> Prop) n x : P x -> Forall P (replicate n x).
Proof. intros H. induction n; simpl; constructor; auto. Qed.

(** Whatever the query, a response of [src/server.js] to [GET /download] has
    status 200, a body of at most 20 MB that is a whole number of megabytes
    long, the matching [Content-Length], and the byte of the letter X in
    every position. *)
Theorem simple_download_bounded (qs : option string) (resp : Simple.response) :
  Simple.download qs = Ok resp ->
  Simple.status resp = 200
  /\ Simple.contentLength resp = byte_length (Simple.body resp)
  /\ 0 <= Simple.contentLength resp <= 20971520
  /\ Simple.contentLength resp mod 1048576 = 0
  /\ Forall (fun b => b = 88) (Simple.body resp).
Proof.
  unfold Simple.download, Buffer_alloc.
  set (size := or_default (parseInt_param qs) 5).
  destruct (Z.min size 20 * 1024 * 1024 <? 0) eqn:E; [discriminate|].
  intros [= <-]. simpl. apply Z.ltb_ge in E.
  split; [reflexivity|].
  split; [unfold byte_length; rewrite length_replicate; lia|].
  split; [lia|].
  split.
  - replace (Z.min size 20 * 1024 * 1024) with (Z.min size 20 * 1048576) by lia.
    apply Z.mod_mul. lia.
  - now apply Forall_replicate_const.
Qed.

(** [GET /download] without a size: the default of 5 MB. *)
Lemma simple_download_bounded_witness :
  let resp := {| Simple.status := 200;
                 Simple.contentLength := Z.min 5 20 * 1024 * 1024;
                 Simple.body := replicate (Z.to_nat (Z.min 5 20 * 1024 * 1024)) 88 |} in
  Simple.status resp = 200
  /\ Simple.contentLength resp = byte_length (Simple.body resp)
  /\ 0 <= Simple.contentLength resp <= 20971520
  /\ Simple.contentLength resp mod 1048576 = 0
  /\ Forall (fun b => b = 88) (Simple.body resp).
Proof.
  intros resp.
  apply (simple_download_bounded None resp).
  reflexivity.
Defined.

Lemma lookup_map_seq {A} (f : nat -> A) n : forall j i,
  (i < n)%nat -> map f (seq j n) !! i = Some (f (j + i)%nat).
Proof.
  induction n as [|n IH]; intros j i Hi; [lia|].
  destruct i as [|i]; simpl.
  - now rewrite Nat.add_0_r.
  - rewrite IH by lia. f_equal. f_equal. lia.
Qed.

(** The configurable variant answers [GET /download] with status 400 exactly
    when the size is above 50, lets [Buffer.alloc] throw exactly when the
    size is negative (it checks no minimum), and otherwise sends a body of
    exactly [size] megabytes in which the fill string repeats. *)
Theorem configurable_download_decisions (qs : option string) (fill : list Z) :
  let size := Configurable.requested_size qs in
  (Configurable.download qs fill
     = Ok (Configurable.Rejected 400 "Maximum download size is 50MB")
   <-> 50 < size)
  /\ (Configurable.download qs fill = Throw RangeError <-> size < 0)
  /\ ((exists body,
         Configurable.download qs fill
           = Ok (Configurable.Sent (size * 1048576) body)
         /\ byte_length body = size * 1048576
         /\ forall i, (i < length body)%nat ->
              body !! i = Some (default 0 (fill !! (i mod length fill)%nat)))
      <-> 0 <= size <= 50).
Proof.
  unfold Configurable.download, Configurable.requested_size,
    Configurable.Buffer_alloc_string.
  set (size := or_default (parseInt_param qs) 10). simpl.
  replace (size * 1024 * 1024) with (size * 1048576) by lia.
  destruct (size >? 50) eqn:E1; [|destruct (size * 1048576 <? 0) eqn:E2].
  - split; [split; [lia | reflexivity]|].
    split; [split; [discriminate | lia]|].
    split; [intros (body & H & _); discriminate | lia].
  - split; [split; [discriminate | lia]|].
    split; [split; [lia | reflexivity]|].
    split; [intros (body & H & _); discriminate | lia].
  - split; [split; [discriminate | lia]|].
    split; [split; [discriminate | lia]|].
    split; [lia|]. intros _.
    eexists. split; [reflexivity|].
    split.
    + unfold byte_length. rewrite length_map, length_seq. lia.
    + intros i Hi. rewrite length_map, length_seq in Hi.
      now rewrite lookup_map_seq by exact Hi.
Qed.

(** A size parameter that parses to a negative number is answered with
    status 400 by the chunked variant only: [src/server.js] and the
    configurable variant pass the negative size to [Buffer.alloc], which
    throws. *)
Theorem negative_size_across_variants (qs qc : option string) (fill : list Z)
    (n : Z) :
  parseInt_param qs = Some n ->
  n < 0 ->
  Chunked.download {| Chunked.q_size := qs; Chunked.q_chunk := qc |}
    = Chunked.Rejected 400 "Minimum download size is 1MB"
  /\ Simple.download qs = Throw RangeError
  /\ Configurable.download qs fill = Throw RangeError.
Proof.
  intros Hp Hn. split; [|split].
  - unfold Chunked.download. simpl. rewrite Hp. unfold or_default at 1 2 3.
    replace (n =? 0) with false by (symmetry; lia).
    replace (n >? 100) with false by (symmetry; lia).
    now replace (n <? 1) with true by (symmetry; lia).
  - unfold Simple.download, Buffer_alloc. rewrite Hp. unfold or_default.
    replace (n =? 0) with false by (symmetry; lia).
    now replace (Z.min n 20 * 1024 * 1024 <? 0) with true by (symmetry; lia).
  - unfold Configurable.download, Configurable.Buffer_alloc_string.
    rewrite Hp. unfold or_default.
    replace (n =? 0) with false by (symmetry; lia).
    replace (n >? 50) with false by (symmetry; lia).
    now replace (n * 1024 * 1024 <? 0) with true by (symmetry; lia).
Qed.

(** [GET /download?size=-3]. *)
Lemma negative_size_across_variants_witness :
  Chunked.download {| Chunked.q_size := Some "-3"; Chunked.q_chunk := None |}
    = Chunked.Rejected 400 "Minimum download size is 1MB"
  /\ Simple.download (Some "-3"%string) = Throw RangeError
  /\ Configurable.download (Some "-3"%string) [97; 98] = Throw RangeError.
Proof.
  apply (negative_size_across_variants (Some "-3"%string) None [97; 98] (-3)).
  - reflexivity.
  - lia.
Defined.

(** ** Uploads across the variants *)

(** An octet-stream body that is framed is measured by every variant with a
    raw parser up to that variant's limit: 100 MB in the chunked variant,
    50 MB in [src/server.js] and in the configurable variant, 10 MB in the
    quick variant.  Above the limit the parser fails with a 413 error, which
    [src/server.js] and the quick variant answer as it is, and which the
    error-handling middleware of the chunked and of the configurable variant
    answers with status 500. *)
Theorem upload_limits (r : Upload.request) (e : Upload.express)
    (JSON_parse : list Z -> option Upload.json) :
  Upload.contentType r = Upload.OctetStream ->
  Upload.hasBody r = true ->
  let N := byte_length (Upload.payload r) in
  let measured limit refusal :=
    if Upload.mb limit <? N then Upload.Failed refusal
    else Upload.Reported (Upload.Value (Upload.JNum N)) in
  Upload.chunked_upload e r = measured 100 500
  /\ Upload.server_upload JSON_parse e r = measured 50 413
  /\ Configurable.upload e r = measured 50 500
  /\ Quick.upload e r = measured 10 413.
Proof.
  intros Hct Hbody N measured. subst measured.
  unfold Upload.chunked_upload, Upload.server_upload, Configurable.upload,
    Quick.upload, Upload.express_json, Upload.express_raw.
  rewrite Hbody, Hct. fold N.
  repeat split.
  - destruct (Upload.mb 100 <? N); reflexivity.
  - destruct (Upload.mb 50 <? N); [reflexivity|].
    unfold Upload.server_handler. simpl. fold N.
    destruct (N =? 0) eqn:E; simpl; [|reflexivity].
    apply Z.eqb_eq in E. rewrite E. now destruct (Upload.framed r).
  - destruct (Upload.mb 50 <? N); reflexivity.
  - destruct (Upload.mb 10 <? N); [reflexivity|].
    unfold Quick.handler. simpl. fold N.
    destruct (N =? 0) eqn:E; simpl; [|reflexivity].
    apply Z.eqb_eq in E. now rewrite E.
Qed.

(** A body of 51 MiB sent in 51 writes of 1 MiB: within the limit of the
    chunked variant only. *)
Lemma upload_limits_witness :
  let r := {| Upload.contentType := Upload.OctetStream;
              Upload.framed := Upload.ChunkedTransfer;
              Upload.writes := replicate 51 (replicate 1048576 0) |} in
  let e := Upload.Express5 in
  let JSON_parse := fun _ : list Z => @None Upload.json in
  let N := byte_length (Upload.payload r) in
  let measured limit refusal :=
    if Upload.mb limit <? N then Upload.Failed refusal
    else Upload.Reported (Upload.Value (Upload.JNum N)) in
  Upload.chunked_upload e r = measured 100 500
  /\ Upload.server_upload JSON_parse e r = measured 50 413
  /\ Configurable.upload e r = measured 50 500
  /\ Quick.upload e r = measured 10 413.
Proof.
  intros r e JSON_parse.
  apply (upload_limits r e JSON_parse).
  - reflexivity.
  - reflexivity.
Defined.

(** A body of a content type no installed parser reads is not measured.
    Under Express 4 the chunked and the configurable variant report an
    undefined [receivedBytes], and [src/server.js] falls back to the
    Content-Length header (0 without one); under Express 5 the three fail
    with status 500.  The quick variant reports 0 under both. *)
Theorem upload_of_unread_content_type (r : Upload.request) (e : Upload.express)
    (JSON_parse : list Z -> option Upload.json) :
  Upload.contentType r = Upload.OtherType ->
  Upload.chunked_upload e r
    = match e with
      | Upload.Express4 => Upload.Reported Upload.Undefined
      | Upload.Express5 => Upload.Failed 500
      end
  /\ Configurable.upload e r = Upload.chunked_upload e r
  /\ Upload.server_upload JSON_parse e r
     = match e, Upload.framed r with
       | Upload.Express4, Upload.ContentLength =>
           Upload.Reported (Upload.Value (Upload.JNum (byte_length (Upload.payload r))))
       | Upload.Express4, _ => Upload.Reported (Upload.Value (Upload.JNum 0))
       | Upload.Express5, _ => Upload.Failed 500
       end
  /\ Quick.upload e r = Upload.Reported (Upload.Value (Upload.JNum 0)).
Proof.
  intros Hct.
  unfold Upload.chunked_upload, Upload.server_upload, Configurable.upload,
    Quick.upload, Upload.express_json, Upload.express_raw.
  rewrite Hct.
  destruct (Upload.hasBody r) eqn:Hb; destruct e; simpl;
    repeat split; try reflexivity;
    unfold Upload.server_handler; simpl; destruct (Upload.framed r); reflexivity.
Qed.

(** A text body of 3 bytes with a Content-Length header. *)
Lemma upload_of_unread_content_type_witness :
  let r := {| Upload.contentType := Upload.OtherType;
              Upload.framed := Upload.ContentLength;
              Upload.writes := [[104; 105; 10]] |} in
  let e := Upload.Express4 in
  let JSON_parse := fun _ : list Z => @None Upload.json in
  Upload.chunked_upload e r
    = match e with
      | Upload.Express4 => Upload.Reported Upload.Undefined
      | Upload.Express5 => Upload.Failed 500
      end
  /\ Configurable.upload e r = Upload.chunked_upload e r
  /\ Upload.server_upload JSON_parse e r
     = match e, Upload.framed r with
       | Upload.Express4, Upload.ContentLength =>
           Upload.Reported (Upload.Value (Upload.JNum (byte_length (Upload.payload r))))
       | Upload.Express4, _ => Upload.Reported (Upload.Value (Upload.JNum 0))
       | Upload.Express5, _ => Upload.Failed 500
       end
  /\ Quick.upload e r = Upload.Reported (Upload.Value (Upload.JNum 0)).
Proof.
  intros r e JSON_parse.
  apply (upload_of_unread_content_type r e JSON_parse).
  reflexivity.
Defined.

(** The quick variant never answers [POST /upload] with status 500: its
    handler reads the length through optional chaining, so the only failure
    is the parser's 413. *)
Theorem quick_upload_never_fails (r : Upload.request) (e : Upload.express) :
  Quick.upload e r = Upload.Failed 413
  \/ exists n, Quick.upload e r = Upload.Reported (Upload.Value (Upload.JNum n))
               /\ 0 <= n <= Upload.mb 10.
Proof.
  unfold Quick.upload, Upload.express_raw.
  assert (Hzero : exists n,
             Upload.Reported (Upload.Value (Upload.JNum 0))
               = Upload.Reported (Upload.Value (Upload.JNum n))
             /\ 0 <= n <= Upload.mb 10)
    by (exists 0; split; [reflexivity | unfold Upload.mb; lia]).
  destruct (Upload.hasBody r); [destruct (Upload.contentType r)|];
    try (right; destruct e; exact Hzero).
  destruct (Upload.mb 10 <? byte_length (Upload.payload r)) eqn:E; [now left|].
  right. apply Z.ltb_ge in E. unfold Quick.handler. simpl.
  destruct (byte_length (Upload.payload r) =? 0) eqn:E0; simpl; [exact Hzero|].
  eexists. split; [reflexivity|]. unfold byte_length in *. lia.
Qed.

(** ** The progressive stream: volume, absence of a cap, write errors *)

Lemma progressive_bytes_uniform st :
  Forall (fun b => byte_length b = Progressive.chunkSize) (Progressive.written st) ->
  progressive_bytes st
  = Progressive.chunkSize * Z.of_nat (length (Progressive.written st)).
Proof.
  unfold progressive_bytes.
  induction 1 as [|b l Hb _ IH]; cbn [foldr length]; [lia|].
  rewrite IH, Hb. lia.
Qed.

Section ProgressiveStream.
Import Progressive.
Variable duration : Z.
Variable clock : nat -> Z.
Variable rng : nat -> Z.

Lemma sendNextChunk_chunks st :
  Forall (fun b => byte_length b = chunkSize) (written st) ->
  Forall (fun b => byte_length b = chunkSize)
    (written (sendNextChunk duration clock rng st)).
Proof.
  intros H.
  destruct (Z_lt_le_dec (elapsed clock (reads st)) duration) as [Hlt|Hge].
  - destruct (sendNextChunk_not_reached duration clock rng st Hlt)
      as (buf & k & Hl & ->).
    cbn [written]. apply Forall_app. split; [exact H|].
    repeat constructor. exact Hl.
  - rewrite (sendNextChunk_reached duration clock rng st Hge). exact H.
Qed.

Lemma step_chunks ev st st' :
  Forall (fun b => byte_length b = chunkSize) (written st) ->
  step duration clock rng ev st = Some st' ->
  Forall (fun b => byte_length b = chunkSize) (written st').
Proof.
  intros H Hs. destruct ev as [err|]; cbn [step] in Hs.
  - destruct (inflight st); [discriminate|]. injection Hs as <-.
    unfold write_callback. destruct err; exact H.
  - destruct (immediates st); [discriminate|]. injection Hs as <-.
    apply sendNextChunk_chunks. exact H.
Qed.

Lemma exec_chunks evs : forall st st',
  Forall (fun b => byte_length b = chunkSize) (written st) ->
  exec duration clock rng evs st = Some st' ->
  Forall (fun b => byte_length b = chunkSize) (written st').
Proof.
  induction evs as [|ev evs IH]; intros st st' H He; cbn [exec] in He.
  - now injection He as <-.
  - destruct (step duration clock rng ev st) as [st1|] eqn:Hs; [|discriminate].
    eapply IH; [|exact He]. eapply step_chunks; eauto.
Qed.

Lemma start_chunks :
  Forall (fun b => byte_length b = chunkSize)
    (written (start duration clock rng)).
Proof. apply sendNextChunk_chunks. exact (List.Forall_nil _). Qed.

(** *** The loop under a sink that may report errors *)

Variable errs : nat -> bool.

Lemma run_nothing_pending fuel st :
  inflight st = [] -> immediates st = O ->
  run duration clock rng errs fuel st = st.
Proof.
  intros Hi Hm. destruct fuel; cbn [run]; [reflexivity|].
  unfold next_event. now rewrite Hi, Hm.
Qed.

Lemma run_round_accepted fuel st buf :
  inflight st = [buf] -> immediates st = O ->
  errs (length (written st) - 1)%nat = false ->
  run duration clock rng errs (S (S fuel)) st =
    run duration clock rng errs fuel
      (sendNextChunk duration clock rng
         (State (written st) [] O (ended st) (thrown st) (draws st) (reads st))).
Proof.
  intros Hi Hm He. cbn [run]. unfold next_event at 1. rewrite Hi. cbn [step].
  rewrite Hi, He. unfold write_callback. simpl. rewrite Hm. reflexivity.
Qed.

Lemma run_round_failed fuel st buf :
  inflight st = [buf] -> immediates st = O ->
  errs (length (written st) - 1)%nat = true ->
  run duration clock rng errs (S fuel) st =
    State (written st) [] O (ended st) (thrown st) (draws st) (reads st).
Proof.
  intros Hi Hm He. cbn [run]. unfold next_event at 1. rewrite Hi. cbn [step].
  rewrite Hi, He. unfold write_callback. rewrite Hm.
  now rewrite run_nothing_pending.
Qed.

(** [k] rounds, each of an accepted write followed by a deadline check that
    finds the deadline not reached. *)
Lemma run_rounds k : forall st buf fuel,
  inflight st = [buf] -> immediates st = O ->
  (1 <= length (written st))%nat ->
  Forall (fun b => byte_length b = chunkSize) (written st) ->
  (forall i, (reads st <= i < reads st + k)%nat -> elapsed clock i < duration) ->
  (forall i, (length (written st) - 1 <= i < length (written st) - 1 + k)%nat ->
             errs i = false) ->
  exists st' buf',
    run duration clock rng errs (2 * k + fuel) st
    = run duration clock rng errs fuel st'
    /\ inflight st' = [buf'] /\ immediates st' = O
    /\ ended st' = ended st /\ thrown st' = thrown st
    /\ length (written st') = (length (written st) + k)%nat
    /\ reads st' = (reads st + k)%nat
    /\ Forall (fun b => byte_length b = chunkSize) (written st').
Proof.
  induction k as [|k IH]; intros st buf fuel Hi Hm Hw Hc Hclock Herrs.
  - exists st, buf. rewrite !Nat.add_0_r. simpl. auto 10.
  - replace (2 * S k + fuel)%nat with (S (S (2 * k + fuel))) by lia.
    rewrite (run_round_accepted _ _ buf Hi Hm) by (apply Herrs; lia).
    destruct (sendNextChunk_not_reached duration clock rng
                (State (written st) [] O (ended st) (thrown st) (draws st)
                   (reads st)))
      as (buf1 & d & Hl & ->).
    { cbn [reads]. apply Hclock. lia. }
    cbn [written inflight immediates ended thrown draws reads app].
    destruct (IH (State (written st ++ [buf1]) [buf1] O (ended st) (thrown st) d
                    (S (reads st))) buf1 fuel)
      as (st' & buf' & Hrun & Hi' & Hm' & He' & Ht' & Hw' & Hr' & Hc');
      cbn [written inflight immediates ended thrown draws reads];
      try reflexivity.
    + rewrite length_app. simpl. lia.
    + apply Forall_app. split; [exact Hc|]. repeat constructor. exact Hl.
    + intros i Hi''. apply Hclock. lia.
    + intros i Hi''. apply Herrs. rewrite length_app in Hi''. simpl in Hi''. lia.
    + exists st', buf'. cbn [written inflight immediates ended thrown draws reads] in *.
      rewrite length_app in Hw'. simpl in Hw'.
      repeat split; auto; lia.
Qed.

Lemma start_writes :
  elapsed clock 1 < duration ->
  exists buf,
    inflight (start duration clock rng) = [buf]
    /\ immediates (start duration clock rng) = O
    /\ ended (start duration clock rng) = false
    /\ thrown (start duration clock rng) = false
    /\ length (written (start duration clock rng)) = 1%nat
    /\ reads (start duration clock rng) = 2%nat.
Proof.
  intros H. unfold start.
  destruct (sendNextChunk_not_reached duration clock rng init H)
    as (buf & k & Hl & ->).
  exists buf. simpl. auto 10.
Qed.

End ProgressiveStream.

(** Accounting of the progressive stream, in every state the handler and its
    callbacks can reach: the generator has not thrown, at most one task is
    pending, every deadline check but the one that ended the response has
    made exactly one write, every chunk written is 1 MiB, and so the volume
    is 1 MiB times the number of writes. *)
Theorem progressive_stream_accounting (duration : Z) (clock rng : nat -> Z)
    (evs : list Progressive.event) (st : Progressive.state) :
  Progressive.exec duration clock rng evs (Progressive.start duration clock rng)
    = Some st ->
  Progressive.thrown st = false
  /\ (length (Progressive.inflight st) + Progressive.immediates st <= 1)%nat
  /\ (length (Progressive.written st)
      + (if Progressive.ended st then 2 else 1))%nat = Progressive.reads st
  /\ Forall (fun b => byte_length b = 1048576) (Progressive.written st)
  /\ progressive_bytes st = 1048576 * Z.of_nat (length (Progressive.written st)).
Proof.
  intros He.
  pose proof (exec_steady duration clock rng evs _ _
                (start_steady duration clock rng) He)
    as ((Hn & _) & Ht & j & Hr & Hs).
  pose proof (exec_chunks duration clock rng evs _ _
                (start_chunks duration clock rng) He) as Hc.
  split; [exact Ht|]. split; [exact Hn|]. split.
  - rewrite Hr. destruct (Progressive.ended st).
    + destruct Hs as (Hj & _ & _ & Hlen & _). lia.
    + destruct Hs as (_ & Hlen). lia.
  - split; [exact Hc|]. apply (progressive_bytes_uniform st Hc).
Qed.

(** The state in which the handler returns. *)
Lemma progressive_stream_accounting_witness :
  let clock := fun k : nat => 1000 * Z.of_nat k in
  let rng := fun i : nat => Z.of_nat i in
  let st := Progressive.start 2500 clock rng in
  Progressive.thrown st = false
  /\ (length (Progressive.inflight st) + Progressive.immediates st <= 1)%nat
  /\ (length (Progressive.written st)
      + (if Progressive.ended st then 2 else 1))%nat = Progressive.reads st
  /\ Forall (fun b => byte_length b = 1048576) (Progressive.written st)
  /\ progressive_bytes st = 1048576 * Z.of_nat (length (Progressive.written st)).
Proof.
  intros clock rng st.
  apply (progressive_stream_accounting 2500 clock rng [] st).
  reflexivity.
Defined.

(** The progressive stream has no cap of its own.  As long as the deadline
    checks read an elapsed time below the duration, each round of the loop
    writes a further chunk: after [m] rounds under a sink that accepts every
    write, [m + 1] chunks, [(m + 1)] MiB, have been written, one write is
    pending and the response is open. *)
Theorem progressive_stream_uncapped (duration : Z) (clock rng : nat -> Z)
    (m : nat) (st : Progressive.state) :
  (forall i, (1 <= i <= S m)%nat -> Progressive.elapsed clock i < duration) ->
  st = Progressive.run duration clock rng (fun _ => false) (2 * m)
         (Progressive.start duration clock rng) ->
  Progressive.ended st = false
  /\ length (Progressive.written st) = S m
  /\ length (Progressive.inflight st) = 1%nat
  /\ Progressive.reads st = S (S m)
  /\ progressive_bytes st = 1048576 * (Z.of_nat m + 1).
Proof.
  intros Hclock ->.
  destruct (start_writes duration clock rng (Hclock 1%nat ltac:(lia)))
    as (buf & Hi & Hm & He & Ht & Hw & Hr).
  destruct (run_rounds duration clock rng (fun _ => false) m
              (Progressive.start duration clock rng) buf 0%nat Hi Hm)
    as (st' & buf' & Hrun & Hi' & Hm' & He' & Ht' & Hw' & Hr' & Hc').
  - lia.
  - apply start_chunks.
  - intros i Hi''. apply Hclock. lia.
  - reflexivity.
  - rewrite Nat.add_0_r in Hrun. rewrite Hrun. cbn [Progressive.run].
    rewrite He', He, Hw', Hw, Hi', Hr', Hr.
    repeat split; try reflexivity.
    rewrite (progressive_bytes_uniform st' Hc'), Hw', Hw.
    change Progressive.chunkSize with 1048576. lia.
Qed.

(** Three rounds with a clock that advances one millisecond per reading and
    the default duration. *)
Lemma progressive_stream_uncapped_witness :
  let clock := fun k : nat => Z.of_nat k in
  let rng := fun i : nat => Z.of_nat i in
  let d := Progressive.effective_duration None in
  let st := Progressive.run d clock rng (fun _ => false) (2 * 3)
              (Progressive.start d clock rng) in
  Progressive.ended st = false
  /\ length (Progressive.written st) = 4%nat
  /\ length (Progressive.inflight st) = 1%nat
  /\ Progressive.reads st = 5%nat
  /\ progressive_bytes st = 1048576 * (Z.of_nat 3 + 1).
Proof.
  intros clock rng d st.
  apply (progressive_stream_uncapped d clock rng 3 st).
  - intros i Hi. unfold Progressive.elapsed, clock.
    change d with 5000. lia.
  - reflexivity.
Defined.

(** When the sink reports an error for write number [j] (counted from 0) and
    for none before, and the deadline has not been reached by then, the
    progressive loop stops for good: nothing is pending, no further deadline
    check is made, and the response is never ended, however long the loop is
    given. *)
Theorem progressive_stops_on_write_error (duration : Z) (clock rng : nat -> Z)
    (errs : nat -> bool) (j fuel : nat) (st : Progressive.state) :
  (forall i, (1 <= i <= S j)%nat -> Progressive.elapsed clock i < duration) ->
  errs j = true ->
  (forall i, (i < j)%nat -> errs i = false) ->
  (2 * j + 1 <= fuel)%nat ->
  st = Progressive.run duration clock rng errs fuel
         (Progressive.start duration clock rng) ->
  Progressive.ended st = false
  /\ Progressive.inflight st = [] /\ Progressive.immediates st = O
  /\ length (Progressive.written st) = S j
  /\ Progressive.reads st = S (S j)
  /\ progressive_bytes st = 1048576 * (Z.of_nat j + 1).
Proof.
  intros Hclock Herr Hnone Hfuel ->.
  destruct (start_writes duration clock rng (Hclock 1%nat ltac:(lia)))
    as (buf & Hi & Hm & He & Ht & Hw & Hr).
  replace fuel with (2 * j + S (fuel - (2 * j + 1)))%nat by lia.
  destruct (run_rounds duration clock rng errs j
              (Progressive.start duration clock rng) buf
              (S (fuel - (2 * j + 1))) Hi Hm)
    as (st' & buf' & Hrun & Hi' & Hm' & He' & Ht' & Hw' & Hr' & Hc').
  - lia.
  - apply start_chunks.
  - intros i Hi''. apply Hclock. lia.
  - intros i Hi''. apply Hnone. lia.
  - rewrite Hrun.
    rewrite (run_round_failed duration clock rng errs _ st' buf' Hi' Hm')
      by (rewrite Hw', Hw; replace (1 + j - 1)%nat with j by lia; exact Herr).
    assert (Hb : progressive_bytes
                   (Progressive.State (Progressive.written st') [] 0
                      (Progressive.ended st') (Progressive.thrown st')
                      (Progressive.draws st') (Progressive.reads st'))
                 = progressive_bytes st') by reflexivity.
    rewrite Hb, (progressive_bytes_uniform st' Hc').
    cbn [Progressive.ended Progressive.inflight Progressive.immediates
         Progressive.written Progressive.reads].
    rewrite He', He, Hw', Hw, Hr', Hr.
    repeat split; try reflexivity.
    change Progressive.chunkSize with 1048576. lia.
Qed.

(** The second write fails, with a clock that advances one millisecond per
    reading and a duration of two seconds. *)
Lemma progressive_stops_on_write_error_witness :
  let clock := fun k : nat => Z.of_nat k in
  let rng := fun i : nat => Z.of_nat i in
  let errs := fun i : nat => Nat.leb 1 i in
  let d := Progressive.effective_duration (Some "2000"%string) in
  let st := Progressive.run d clock rng errs 10 (Progressive.start d clock rng) in
  Progressive.ended st = false
  /\ Progressive.inflight st = [] /\ Progressive.immediates st = O
  /\ length (Progressive.written st) = 2%nat
  /\ Progressive.reads st = 3%nat
  /\ progressive_bytes st = 1048576 * (Z.of_nat 1 + 1).
Proof.
  intros clock rng errs d st.
  apply (progressive_stops_on_write_error d clock rng errs 1 10 st).
  - intros i Hi. unfold Progressive.elapsed, clock.
    change d with 2000. lia.
  - reflexivity.
  - intros i Hi. assert (i = 0%nat) as -> by lia. reflexivity.
  - lia.
  - reflexivity.
Defined.

(** ** Uploads that are not octet streams *)

(** The first variant installs only the JSON parser and measures the
    re-serialised [req.body].  A body of another content type is never
    measured: under Express 4 the answer is 2, the length of the serialised
    empty object, whatever was sent; under Express 5 the request fails with
    status 500. *)
Theorem first_upload_ignores_other_bodies (r : Upload.request)
    (e : Upload.express) (JSON_parse : list Z -> option Upload.json) :
  Upload.contentType r <> Upload.ApplicationJson ->
  Upload.first_upload JSON_parse e r
  = match e with
    | Upload.Express4 => Upload.Reported (Upload.Value (Upload.JNum 2))
    | Upload.Express5 => Upload.Failed 500
    end.
Proof.
  intros Hct. unfold Upload.first_upload, Upload.express_json.
  destruct (Upload.hasBody r); [destruct (Upload.contentType r)|];
    try congruence; destruct e; reflexivity.
Qed.

(** Four bytes sent as an octet stream. *)
Lemma first_upload_ignores_other_bodies_witness :
  let r := {| Upload.contentType := Upload.OctetStream;
              Upload.framed := Upload.ContentLength;
              Upload.writes := [[1; 2; 3; 4]] |} in
  Upload.first_upload (fun _ => None) Upload.Express4 r
  = Upload.Reported (Upload.Value (Upload.JNum 2)).
Proof.
  intros r.
  apply (first_upload_ignores_other_bodies r Upload.Express4 (fun _ => None)).
  discriminate.
Defined.

(** A JSON upload to [src/server.js] is measured through [req.body.length]
    of the parsed value, not through the bytes received.  A non-empty array
    yields its number of elements.  An object without a member named
    [length] yields no length, and the handler falls back to the
    Content-Length header, which is absent under chunked transfer
    encoding. *)
Theorem server_upload_json (r : Upload.request) (e : Upload.express)
    (JSON_parse : list Z -> option Upload.json) (v : Upload.json) :
  Upload.contentType r = Upload.ApplicationJson ->
  Upload.hasBody r = true ->
  Upload.payload r <> [] ->
  byte_length (Upload.payload r) <= Upload.mb 50 ->
  JSON_parse (Upload.payload r) = Some v ->
  (forall x l, v = Upload.JArr (x :: l) ->
     Upload.server_upload JSON_parse e r
     = Upload.Reported (Upload.Value (Upload.JNum (Z.of_nat (length (x :: l))))))
  /\ (forall members, v = Upload.JObj members ->
        Forall (fun m => fst m <> "length"%string) members ->
        Upload.server_upload JSON_parse e r
        = Upload.Reported
            (Upload.Value
               (Upload.JNum
                  (match Upload.framed r with
                   | Upload.ContentLength => byte_length (Upload.payload r)
                   | _ => 0
                   end)))).
Proof.
  intros Hct Hbody Hne Hlim Hparse.
  assert (Hj : Upload.server_upload JSON_parse e r
               = Upload.server_handler r (Upload.BodyJson v)).
  { unfold Upload.server_upload, Upload.express_json, Upload.express_raw.
    rewrite Hbody, Hct.
    rewrite (proj2 (Z.ltb_ge _ _)) by lia.
    destruct (Upload.payload r) eqn:Ep; [congruence|].
    now rewrite Hparse. }
  rewrite Hj. split.
  - intros x l ->. reflexivity.
  - intros members -> Hno. unfold Upload.server_handler, Upload.length_of.
    assert (Hfind : list_find (fun m : string * Upload.json =>
                                 bool_decide (fst m = "length"%string))
                      (reverse members) = None).
    { apply list_find_None, Forall_reverse.
      eapply Forall_impl; [exact Hno|].
      intros m Hm Hb. apply Hm. now apply bool_decide_unpack in Hb. }
    rewrite Hfind. cbn [Upload.truthy].
    destruct (Upload.framed r); reflexivity.
Qed.

(** The 7-byte body [[1,2,3]] read as an array of three elements. *)
Lemma server_upload_json_witness :
  let r := {| Upload.contentType := Upload.ApplicationJson;
              Upload.framed := Upload.ContentLength;
              Upload.writes := [[91; 49; 44; 50; 44; 51; 93]] |} in
  let v := Upload.JArr [Upload.JNum 1; Upload.JNum 2; Upload.JNum 3] in
  let JSON_parse := fun _ : list Z => Some v in
  let e := Upload.Express4 in
  (forall x l, v = Upload.JArr (x :: l) ->
     Upload.server_upload JSON_parse e r
     = Upload.Reported (Upload.Value (Upload.JNum (Z.of_nat (length (x :: l))))))
  /\ (forall members, v = Upload.JObj members ->
        Forall (fun m => fst m <> "length"%string) members ->
        Upload.server_upload JSON_parse e r
        = Upload.Reported
            (Upload.Value
               (Upload.JNum
                  (match Upload.framed r with
                   | Upload.ContentLength => byte_length (Upload.payload r)
                   | _ => 0
                   end)))).
Proof.
  intros r v JSON_parse e.
  apply (server_upload_json r e JSON_parse v).
  - reflexivity.
  - reflexivity.
  - discriminate.
  - vm_compute. discriminate.
  - reflexivity.
Defined.

(** ** Chunks in order and without loss *)

(** An accepted download whose chunk size is a positive integer and a whole
    number of 32-bit words (or not below the buffer size) is written in
    order and without loss.  In every state the loop reaches, whatever the
    sink answers, the writes made so far lie one after the other from
    offset 0, each of [min(chunkSize, remaining)] bytes at the value
    [sentBytes] had when it was issued, with strictly growing offsets.  And
    with a sink that accepts every write the loop does run to the end: it
    makes [chunkCount] such writes, which add up to the declared
    [Content-Length], and ends the response. *)
Theorem chunks_in_order_without_loss (q : Chunked.download_query) (cl : Z)
    (s : Chunked.session) (rng : nat -> Z) (evs : list Chunked.event)
    (st : Chunked.state) (fuel : nat) (final : Chunked.state) :
  Chunked.download q = Chunked.Streaming cl s ->
  positive_integer (Chunked.chunkSize s) ->
  Chunked.chunkSize s mod 4 = 0 \/ Chunked.bufferSize s <= Chunked.chunkSize s ->
  Chunked.exec s rng evs (Chunked.start s rng) = Some st ->
  (Z.to_nat (2 * Chunked.chunkCount s) <= fuel)%nat ->
  final = Chunked.run s rng (fun _ => false) fuel (Chunked.start s rng) ->
  (Chunked.contiguous s 0 (Chunked.written st)
   /\ Chunked.increasing (Chunked.written st))
  /\ (Chunked.ended final = true
      /\ Chunked.thrown final = false
      /\ Z.of_nat (length (Chunked.written final)) = Chunked.chunkCount s
      /\ Chunked.contiguous s 0 (Chunked.written final)
      /\ Chunked.increasing (Chunked.written final)
      /\ Chunked.bytes_written final = cl).
Proof.
  intros Hd [Hc Hfin] Ha He Hfuel Hrun.
  destruct (download_streaming q cl s Hd) as (Hsize & Hcl & HB & _ & _).
  assert (0 < Chunked.bufferSize s) as HBpos by lia.
  assert (Chunked.bufferSize s mod 4 = 0) as Hal.
  { rewrite HB, Hcl. change 1048576 with (262144 * 4).
    rewrite Z.mul_assoc. apply Z.mod_mul. lia. }
  split.
  - pose proof (exec_layout s rng Hc Hfin HBpos evs _ _
                  (start_layout s rng Hc Hfin HBpos) He) as (Hcont & Hpos & _).
    split; [exact Hcont|]. eapply contiguous_increasing; eauto.
  - destruct (sendChunk_completes s rng Hc Hfin HBpos Hal Ha fuel final Hfuel Hrun)
      as (Hend & Ht & _ & _ & Hw & Hn & Hcont & Hinc).
    repeat split; auto. lia.
Qed.

(** [GET /download?size=1&chunk=4]: after the first write is acknowledged,
    [sendChunk(1)] has run and its write is acknowledged, two chunks of four
    bytes lie at offsets 0 and 4; the whole download takes 262144 writes. *)
Lemma chunks_in_order_without_loss_witness :
  let s := {| Chunked.bufferSize := 1048576; Chunked.chunkSize := 4 |} in
  let rng := fun j : nat => 1000 + Z.of_nat j in
  let st := Chunked.State 8 [(0, [232; 3; 0; 0]); (4, [233; 3; 0; 0])] [] [2]
              false false 2 in
  let fuel := Z.to_nat (2 * Chunked.chunkCount s) in
  let final := Chunked.run s rng (fun _ => false) fuel (Chunked.start s rng) in
  (Chunked.contiguous s 0 (Chunked.written st)
   /\ Chunked.increasing (Chunked.written st))
  /\ (Chunked.ended final = true
      /\ Chunked.thrown final = false
      /\ Z.of_nat (length (Chunked.written final)) = Chunked.chunkCount s
      /\ Chunked.contiguous s 0 (Chunked.written final)
      /\ Chunked.increasing (Chunked.written final)
      /\ Chunked.bytes_written final = 1048576).
Proof.
  intros s rng st fuel final.
  apply (chunks_in_order_without_loss
           {| Chunked.q_size := Some "1"; Chunked.q_chunk := Some "4" |}
           1048576 s rng
           [Chunked.WriteDone false; Chunked.Immediate; Chunked.WriteDone false]
           st fuel final).
  - reflexivity.
  - split; reflexivity.
  - left. reflexivity.
  - vm_compute. reflexivity.
  - exact (le_n _).
  - reflexivity.
Defined.
